(** * Minimum distance between two voxel masks

    A shallow embedding of [distance_calculator.py]: the coordinate
    transform [convert_to_world_coordinates] and the class [Distances]
    with its two memoised members.

    Modelling conventions.
    - A numpy array of shape (N,3) is a list of triples, one triple per
      row; an array of shape (3,N) is a triple of lists, one list per row.
    - The voxel array returned by [sitk.GetArrayFromImage] is a nested
      list indexed [z][y][x]; voxel values are integer labels.
    - float64 arithmetic is modelled by exact arithmetic over the reals:
      rounding, overflow and NaN are outside the model.  The one special
      float value that the program can produce on its own, the infinite
      distance reported for a missing neighbour, is kept ([Inf]).
    - A Python exception is modelled by [None]. *)

From Stdlib Require Import Reals Lra Lia List Arith ZArith Bool.
Import ListNotations.

Open Scope R_scope.

(** ** numpy arrays of the shapes the program uses *)

Module Np.

Definition row3 (A : Type) : Type := (A * A * A)%type.

(** shape (N,3) *)
Definition arrN3 (A : Type) : Type := list (row3 A).

(** shape (3,N) *)
Definition arr3N (A : Type) : Type := row3 (list A).

(** shape (3,3) *)
Definition mat33 : Type := row3 (row3 R).

Definition tuple9 : Type := (R * R * R * R * R * R * R * R * R)%type.

(** [np.array(t).reshape(3, 3)] of a flat 9-tuple: row-major. *)
Definition reshape33 (t : tuple9) : mat33 :=
  let '(a, b, c, d, e, f, g, h, i) := t in ((a, b, c), (d, e, f), (g, h, i)).

(** [mask > 0], elementwise. *)
Definition gt0 (mask : list (list (list Z))) : list (list (list bool)) :=
  map (map (map (fun v => (0 <? v)%Z))) mask.

(** [np.argwhere] of a boolean array: the positions of its true entries
    in C (row-major) order, one row [z, y, x] per entry. *)
Fixpoint argwhere1 (x : nat) (row : list bool) : list nat :=
  match row with
  | [] => []
  | b :: t => (if b then [x] else []) ++ argwhere1 (S x) t
  end.

Fixpoint argwhere2 (y : nat) (plane : list (list bool)) : list (nat * nat) :=
  match plane with
  | [] => []
  | r :: t => map (pair y) (argwhere1 0 r) ++ argwhere2 (S y) t
  end.

Fixpoint argwhere3 (z : nat) (vol : list (list (list bool))) : arrN3 nat :=
  match vol with
  | [] => []
  | p :: t => map (fun yx => (z, fst yx, snd yx)) (argwhere2 0 p)
              ++ argwhere3 (S z) t
  end.

Definition argwhere (vol : list (list (list bool))) : arrN3 nat :=
  argwhere3 0 vol.

(** [a[:, ::-1]]: every row reversed. *)
Definition flip_columns {A : Type} (a : arrN3 A) : arrN3 A :=
  map (fun r => let '(p, q, s) := r in (s, q, p)) a.

(** [idx * v] for an integer (N,3) array and a float 3-vector: the
    vector is broadcast over the rows, the integers become floats. *)
Definition mul_rows (idx : arrN3 nat) (v : row3 R) : arrN3 R :=
  let '(v0, v1, v2) := v in
  map (fun r => let '(p, q, s) := r in (INR p * v0, INR q * v1, INR s * v2)) idx.

(** [v + a] for a float 3-vector and a float (N,3) array. *)
Definition add_rows (v : row3 R) (a : arrN3 R) : arrN3 R :=
  let '(v0, v1, v2) := v in
  map (fun r => let '(p, q, s) := r in (v0 + p, v1 + q, v2 + s)) a.

(** [a.T] for a of shape (N,3). *)
Definition transpose_N3 {A : Type} (a : arrN3 A) : arr3N A :=
  (map (fun r => fst (fst r)) a, map (fun r => snd (fst r)) a, map snd a).

(** [a.T] for a of shape (3,N). *)
Fixpoint zip3 {A : Type} (l0 l1 l2 : list A) : arrN3 A :=
  match l0, l1, l2 with
  | a :: t0, b :: t1, c :: t2 => (a, b, c) :: zip3 t0 t1 t2
  | _, _, _ => []
  end.

Definition transpose_3N {A : Type} (a : arr3N A) : arrN3 A :=
  let '(l0, l1, l2) := a in zip3 l0 l1 l2.

(** One row of [m @ a]: the combination [c0*a[0] + c1*a[1] + c2*a[2]]
    of the three rows of a, column by column. *)
Definition row_times (c : row3 R) (a : arr3N R) : list R :=
  let '(c0, c1, c2) := c in
  map (fun r => let '(p, q, s) := r in c0 * p + c1 * q + c2 * s)
      (transpose_3N a).

(** [m @ a] for m of shape (3,3) and a of shape (3,N). *)
Definition matmul (m : mat33) (a : arr3N R) : arr3N R :=
  let '(m0, m1, m2) := m in (row_times m0 a, row_times m1 a, row_times m2 a).

End Np.

Import Np.

(** ** Images *)

(** What the program reads of a [sitk.Image]: the three metadata getters
    and the voxel array, already in numpy's [z][y][x] order. *)
Record Image : Type := mkImage {
  GetOrigin : row3 R;
  GetSpacing : row3 R;
  GetDirection : tuple9;
  GetArrayFromImage : list (list (list Z))
}.

(** ** convert_to_world_coordinates *)

Definition convert_to_world_coordinates (img : Image) : arrN3 R :=
  let origin := GetOrigin img in
  let spacing := GetSpacing img in
  let direction := reshape33 (GetDirection img) in
  let mask := GetArrayFromImage img in
  let voxel_indices := flip_columns (argwhere (gt0 mask)) in
  let scaled_indices := mul_rows voxel_indices spacing in
  let world_points :=
    add_rows origin (transpose_3N (matmul direction (transpose_N3 scaled_indices))) in
  world_points.

(** ** The mask in the words of the specification *)

(** The voxel stored at array position [z][y][x], if there is one. *)
Definition voxel (mask : list (list (list Z))) (z y x : nat) : option Z :=
  match nth_error mask z with
  | Some plane =>
      match nth_error plane y with
      | Some row => nth_error row x
      | None => None
      end
  | None => None
  end.

Definition enumerate {A : Type} (l : list A) : list (nat * A) :=
  combine (seq 0 (length l)) l.

(** Every voxel with its array position [(z, y, x)], in array-traversal
    order: z slowest, x fastest. *)
Definition voxels (mask : list (list (list Z))) : list (row3 nat * Z) :=
  flat_map (fun zp =>
    flat_map (fun yr =>
      map (fun xv => ((fst zp, fst yr, fst xv), snd xv)) (enumerate (snd yr)))
      (enumerate (snd zp)))
    (enumerate mask).

Definition positive_voxels (mask : list (list (list Z))) : list (row3 nat * Z) :=
  filter (fun pv => (0 <? snd pv)%Z) (voxels mask).

(** The number of voxels whose value exceeds zero. *)
Definition count_positive (mask : list (list (list Z))) : nat :=
  length (filter (fun v => (0 <? v)%Z) (concat (concat mask))).

Definition has_positive (mask : list (list (list Z))) : Prop :=
  exists z y x v, voxel mask z y x = Some v /\ (0 < v)%Z.

Definition all_zero (mask : list (list (list Z))) : Prop :=
  forall z y x v, voxel mask z y x = Some v -> (v <= 0)%Z.

(** An array position [(z, y, x)] read as an index triple [(x, y, z)]. *)
Definition reversed (p : row3 nat) : row3 nat :=
  let '(z, y, x) := p in (x, y, z).

(** [origin + direction . (spacing o index)], o elementwise, for one index triple
    [(x, y, z)], with the direction matrix read row-major. *)
Definition world_point (img : Image) (index : row3 nat) : row3 R :=
  let '(o0, o1, o2) := GetOrigin img in
  let '(s0, s1, s2) := GetSpacing img in
  let '(d00, d01, d02, d10, d11, d12, d20, d21, d22) := GetDirection img in
  let '(i, j, k) := index in
  let '(u, v, w) := (s0 * INR i, s1 * INR j, s2 * INR k) in
  (o0 + (d00 * u + d01 * v + d02 * w),
   o1 + (d10 * u + d11 * v + d12 * w),
   o2 + (d20 * u + d21 * v + d22 * w)).

(** Every positive voxel of the first mask is positive in the second,
    and the two masks have the same shape. *)
Definition grows (m m' : list (list (list Z))) : Prop :=
  Forall2 (Forall2 (Forall2 (fun v v' => (0 < v)%Z -> (0 < v')%Z))) m m'.

(** The second image is the first with possibly more positive voxels. *)
Definition grown (img img' : Image) : Prop :=
  GetOrigin img' = GetOrigin img /\
  GetSpacing img' = GetSpacing img /\
  GetDirection img' = GetDirection img /\
  grows (GetArrayFromImage img) (GetArrayFromImage img').

(** ** Sample images

    One row of four voxels along x, unit spacing, zero origin, identity
    direction unless said otherwise. *)

Definition identity : tuple9 := (1, 0, 0, 0, 1, 0, 0, 0, 1).

Definition on_axis (row : list Z) : Image :=
  mkImage (0, 0, 0) (1, 1, 1) identity [[row]].

(** Voxel 0 set: the world point (0, 0, 0). *)
Definition sample_a : Image := on_axis [1; 0; 0; 0]%Z.

(** Voxel 3 set: the world point (3, 0, 0). *)
Definition sample_b : Image := on_axis [0; 0; 0; 1]%Z.

(** Voxels 0 and 1 set. *)
Definition sample_a_grown : Image := on_axis [1; 5; 0; 0]%Z.

Definition sample_empty : Image := on_axis [0; 0; 0; 0]%Z.

(** Spacing 2, origin (10, 0, 0), the voxel of index (1, 0, 0) set. *)
Definition sample_scaled : Image :=
  mkImage (10, 0, 0) (2, 2, 2) identity [[[0; 1]]]%Z.

(** ** Distances *)

Definition point : Type := row3 R.

(** The Euclidean distance of two points. *)
Definition norm2 (a b : point) : R :=
  let '(a0, a1, a2) := a in
  let '(b0, b1, b2) := b in
  sqrt ((a0 - b0) * (a0 - b0) + (a1 - b1) * (a1 - b1) + (a2 - b2) * (a2 - b2)).

(** The values a distance takes: a real number or float64's [inf]. *)
Inductive dist : Type :=
| Fin (r : R)
| Inf.

Definition dmin (a b : dist) : dist :=
  match a, b with
  | Fin x, Fin y => Fin (Rmin x y)
  | Inf, _ => b
  | _, Inf => a
  end.

Definition dist_le (a b : dist) : Prop :=
  match a, b with
  | _, Inf => True
  | Fin x, Fin y => x <= y
  | Inf, Fin _ => False
  end.

(** [a.min()] of a one-dimensional array; numpy raises ValueError on a
    zero-size array. *)
Definition np_min (a : list dist) : option dist :=
  match a with
  | [] => None
  | x :: t => Some (fold_left dmin t x)
  end.

(** *** The spatial index

    [scipy.spatial.cKDTree] is used through two calls: the constructor on
    an (N,3) array and [query] with the default [k=1], [p=2]; the argument
    [workers=-1] only sets how many threads share the work.  The model
    fixes their documented contract and nothing else: one distance per
    query point, the Euclidean distance to a nearest data point, and an
    infinite distance where there is no neighbour. *)

Definition nearest_distance (data : arrN3 R) (q : point) (d : dist) : Prop :=
  match d with
  | Fin r => exists x, In x data /\ r = norm2 q x /\
                       forall y, In y data -> r <= norm2 q y
  | Inf => data = []
  end.

Class SpatialIndex : Type := {
  tree : Type;
  cKDTree : arrN3 R -> tree;
  query : tree -> arrN3 R -> list dist;
  query_spec : forall data qs,
    Forall2 (nearest_distance data) qs (query (cKDTree data) qs)
}.

(** A reference index: the data itself, searched by a linear scan. *)
Definition scan (data : arrN3 R) (q : point) : dist :=
  fold_right (fun x acc => dmin (Fin (norm2 q x)) acc) Inf data.

(** *** The brute-force minimum, in the words of the specification *)

(** The distances of all pairs (a in A, b in B). *)
Definition pairwise (A B : arrN3 R) : list R :=
  flat_map (fun a => map (fun b => norm2 a b) B) A.

Definition min_list (l : list R) : option R :=
  match l with
  | [] => None
  | x :: t => Some (fold_left Rmin t x)
  end.

Definition brute_force_min (A B : arrN3 R) : option R :=
  min_list (pairwise A B).

(** m is a least member of l. *)
Definition is_min (m : R) (l : list R) : Prop :=
  In m l /\ forall x, In x l -> m <= x.

(** ** A change of the mask, for stating what the cloud depends on *)

(** The mask with every label above zero replaced by 1 and every other
    value by 0. *)
Definition binarise (img : Image) : Image :=
  mkImage (GetOrigin img) (GetSpacing img) (GetDirection img)
          (map (map (map (fun v => if (0 <? v)%Z then 1%Z else 0%Z)))
               (GetArrayFromImage img)).

(** ** class Distances *)

Section DistancesClass.

Context {SI : SpatialIndex}.

(** The body of [Distances._compute_distances]. *)
Definition _compute_distances (img_1 img_2 : Image) : list dist :=
  let points_1 := convert_to_world_coordinates img_1 in
  let points_2 := convert_to_world_coordinates img_2 in
  let tree := cKDTree points_2 in
  let distances := query tree points_1 in
  distances.

(** The body of [Distances.minimum], on a fresh distance array. *)
Definition minimum (img_1 img_2 : Image) : option dist :=
  np_min (_compute_distances img_1 img_2).

(** *** Instances and the two caches

    [cached_property] stores the value of [minimum] in the instance's
    own [__dict__] when the body returns; nothing is stored when the
    body raises.  [lru_cache(maxsize=1)] decorates the function object
    [Distances._compute_distances]: its single slot is keyed by the
    instance and shared by all instances. *)

Definition obj : Type := nat.

Record Distances : Type := mkDistances {
  img_1 : Image;
  img_2 : Image;
  dict_minimum : option dist
}.

(** Ghost record of the bodies that ran. *)
Inductive event : Type :=
| Computed_distances (o : obj)
| Computed_minimum (o : obj)
| Raised_minimum (o : obj).

Record World : Type := mkWorld {
  heap : obj -> option Distances;
  next : obj;
  lru : option (obj * list dist);
  log : list event
}.

Definition init : World :=
  {| heap := fun _ => None; next := O; lru := None; log := [] |}.

Definition store (o : obj) (i : Distances) (h : obj -> option Distances)
  : obj -> option Distances :=
  fun o' => if Nat.eqb o' o then Some i else h o'.

(** [Distances(path_1, path_2)], given the two images read. *)
Definition new (i1 i2 : Image) (w : World) : obj * World :=
  (next w,
   {| heap := store (next w) (mkDistances i1 i2 None) (heap w);
      next := S (next w);
      lru := lru w;
      log := log w |}).

(** [self._compute_distances()] through the [lru_cache] wrapper. *)
Definition call_compute_distances (o : obj) (self : Distances) (w : World)
  : list dist * World :=
  match lru w with
  | Some (o', d) =>
      if Nat.eqb o' o then (d, w)
      else
        let d' := _compute_distances (img_1 self) (img_2 self) in
        (d', {| heap := heap w; next := next w; lru := Some (o, d');
                log := log w ++ [Computed_distances o] |})
  | None =>
      let d' := _compute_distances (img_1 self) (img_2 self) in
      (d', {| heap := heap w; next := next w; lru := Some (o, d');
              log := log w ++ [Computed_distances o] |})
  end.

(** Reading the attribute [minimum] of instance [o]. *)
Definition get_minimum (o : obj) (w : World) : option dist * World :=
  match heap w o with
  | None => (None, w)
  | Some self =>
      match dict_minimum self with
      | Some v => (Some v, w)
      | None =>
          let '(d, w1) := call_compute_distances o self w in
          match np_min d with
          | Some v =>
              (Some v,
               {| heap := store o (mkDistances (img_1 self) (img_2 self) (Some v))
                                (heap w1);
                  next := next w1; lru := lru w1;
                  log := log w1 ++ [Computed_minimum o] |})
          | None =>
              (None,
               {| heap := heap w1; next := next w1; lru := lru w1;
                  log := log w1 ++ [Raised_minimum o] |})
          end
      end
  end.

(** Any change to the two images of instance [o]: in place, or by
    rebinding the attributes. *)
Definition mutate (o : obj) (i1 i2 : Image) (w : World) : World :=
  match heap w o with
  | None => w
  | Some self =>
      {| heap := store o (mkDistances i1 i2 (dict_minimum self)) (heap w);
         next := next w; lru := lru w; log := log w |}
  end.

Inductive op : Type :=
| New (i1 i2 : Image)
| Get_minimum (o : obj)
| Mutate (o : obj) (i1 i2 : Image).

Definition step (w : World) (a : op) : World :=
  match a with
  | New i1 i2 => snd (new i1 i2 w)
  | Get_minimum o => snd (get_minimum o w)
  | Mutate o i1 i2 => mutate o i1 i2 w
  end.

Definition run (ops : list op) (w : World) : World :=
  fold_left step ops w.

Definition event_eqb (e e' : event) : bool :=
  match e, e' with
  | Computed_distances o, Computed_distances o' => Nat.eqb o o'
  | Computed_minimum o, Computed_minimum o' => Nat.eqb o o'
  | Raised_minimum o, Raised_minimum o' => Nat.eqb o o'
  | _, _ => false
  end.

Definition count (e : event) (l : list event) : nat :=
  length (filter (event_eqb e) l).

(** Instance o holds a stored value of [minimum]. *)
Definition cached (w : World) (o : obj) : bool :=
  match heap w o with
  | Some self =>
      match dict_minimum self with
      | Some _ => true
      | None => false
      end
  | None => false
  end.

(** Instance o is live and its [__dict__] stores v for [minimum]. *)
Definition stored (w : World) (o : obj) (v : dist) : Prop :=
  (exists self, heap w o = Some self /\ dict_minimum self = Some v) /\
  (o < next w)%nat.

(** What every world reached from [init] satisfies. *)
Record reachable_inv (w : World) : Prop := mkInv {
  inv_minimum : forall o,
    count (Computed_minimum o) (log w) = if cached w o then 1%nat else 0%nat;
  inv_distances : forall o,
    count (Raised_minimum o) (log w) = 0%nat ->
    count (Computed_distances o) (log w) = if cached w o then 1%nat else 0%nat;
  inv_lru : forall o d,
    lru w = Some (o, d) -> (1 <= count (Computed_distances o) (log w))%nat;
  inv_heap : forall o, heap w o <> None -> (o < next w)%nat;
  inv_slot : forall o d, lru w = Some (o, d) -> (o < next w)%nat
}.

(** Two instances, the first with an empty first cloud; [minimum] is
    read on the first, on the second, and on the first again. *)
Definition interleaved : list op :=
  [New sample_empty sample_b; New sample_a sample_b;
   Get_minimum 0%nat; Get_minimum 1%nat; Get_minimum 0%nat].

End DistancesClass.

(** * Properties *)

(** ** The array pipeline of convert_to_world_coordinates *)

Section Pipeline.

Lemma zip3_transpose_N3 {A : Type} (a : arrN3 A) :
  transpose_3N (transpose_N3 a) = a.
Proof.
  unfold transpose_3N, transpose_N3.
  induction a as [|[[p q] s] a IH]; simpl; [reflexivity|].
  now rewrite IH.
Qed.

Lemma zip3_map {A B : Type} (f g h : A -> B) (l : list A) :
  zip3 (map f l) (map g l) (map h l) = map (fun r => (f r, g r, h r)) l.
Proof.
  induction l as [|r l IH]; simpl; [reflexivity|].
  now rewrite IH.
Qed.

(** [(m @ a.T).T] multiplies every row of a by m. *)
Lemma matmul_rows (m : mat33) (a : arrN3 R) :
  transpose_3N (matmul m (transpose_N3 a)) =
  map (fun r =>
         let '(p, q, s) := r in
         let '(m0, m1, m2) := m in
         let '(m00, m01, m02) := m0 in
         let '(m10, m11, m12) := m1 in
         let '(m20, m21, m22) := m2 in
         (m00 * p + m01 * q + m02 * s,
          m10 * p + m11 * q + m12 * s,
          m20 * p + m21 * q + m22 * s)) a.
Proof.
  destruct m as [[[[m00 m01] m02] [[m10 m11] m12]] [[m20 m21] m22]].
  unfold matmul, row_times.
  rewrite zip3_transpose_N3.
  unfold transpose_3N. rewrite zip3_map.
  apply map_ext. intros [[p q] s]. reflexivity.
Qed.

(** The pipeline, row by row: every array position found by
    [argwhere] is sent to its world point. *)
Lemma convert_rows (img : Image) :
  convert_to_world_coordinates img =
  map (fun p => world_point img (reversed p))
      (argwhere (gt0 (GetArrayFromImage img))).
Proof.
  unfold convert_to_world_coordinates.
  rewrite matmul_rows.
  destruct img as [[[o0 o1] o2] [[s0 s1] s2] d mask]; simpl.
  destruct d as [[[[[[[[d00 d01] d02] d10] d11] d12] d20] d21] d22].
  unfold add_rows, mul_rows, flip_columns, world_point, reshape33; simpl.
  rewrite !map_map.
  apply map_ext. intros [[z y] x]. simpl.
  f_equal; [f_equal|]; ring.
Qed.

End Pipeline.

(** ** argwhere against the traversal of the mask *)

Section Argwhere.

Let pos (v : Z) : bool := (0 <? v)%Z.

Lemma argwhere1_enum (f : nat -> row3 nat) (row : list Z) : forall x0,
  map f (argwhere1 x0 (map pos row)) =
  map fst (filter (fun pv => pos (snd pv))
             (map (fun xv => (f (fst xv), snd xv))
                  (combine (seq x0 (length row)) row))).
Proof.
  induction row as [|v row IH]; intros x0; simpl; [reflexivity|].
  rewrite map_app, IH.
  destruct (pos v); reflexivity.
Qed.

Lemma argwhere2_enum (z : nat) (plane : list (list Z)) : forall y0,
  map (fun yx => (z, fst yx, snd yx)) (argwhere2 y0 (map (map pos) plane)) =
  map fst (filter (fun pv => pos (snd pv))
             (flat_map (fun yr =>
                map (fun xv => ((z, fst yr, fst xv), snd xv)) (enumerate (snd yr)))
                (combine (seq y0 (length plane)) plane))).
Proof.
  induction plane as [|row plane IH]; intros y0; simpl; [reflexivity|].
  rewrite filter_app, !map_app, IH, map_map. f_equal.
  apply (argwhere1_enum (fun x => (z, y0, x))).
Qed.

Lemma argwhere3_enum (mask : list (list (list Z))) : forall z0,
  argwhere3 z0 (map (map (map pos)) mask) =
  map fst (filter (fun pv => pos (snd pv))
             (flat_map (fun zp =>
                flat_map (fun yr =>
                  map (fun xv => ((fst zp, fst yr, fst xv), snd xv))
                      (enumerate (snd yr)))
                  (enumerate (snd zp)))
                (combine (seq z0 (length mask)) mask))).
Proof.
  induction mask as [|plane mask IH]; intros z0; simpl; [reflexivity|].
  rewrite filter_app, map_app, IH. f_equal.
  apply argwhere2_enum.
Qed.

Lemma argwhere_positive_voxels (mask : list (list (list Z))) :
  argwhere (gt0 mask) = map fst (positive_voxels mask).
Proof. apply argwhere3_enum. Qed.

Lemma argwhere1_length (row : list Z) : forall x0,
  length (argwhere1 x0 (map pos row)) = length (filter pos row).
Proof.
  induction row as [|v row IH]; intros x0; simpl; [reflexivity|].
  rewrite length_app, IH. destruct (pos v); reflexivity.
Qed.

Lemma argwhere2_length (plane : list (list Z)) : forall y0,
  length (argwhere2 y0 (map (map pos) plane)) =
  length (filter pos (concat plane)).
Proof.
  induction plane as [|row plane IH]; intros y0; simpl; [reflexivity|].
  rewrite filter_app, !length_app, length_map, IH, argwhere1_length.
  reflexivity.
Qed.

Lemma argwhere3_length (mask : list (list (list Z))) : forall z0,
  length (argwhere3 z0 (map (map (map pos)) mask)) =
  length (filter pos (concat (concat mask))).
Proof.
  induction mask as [|plane mask IH]; intros z0; simpl; [reflexivity|].
  rewrite concat_app, filter_app, !length_app, length_map, IH, argwhere2_length.
  reflexivity.
Qed.

Lemma argwhere_count (mask : list (list (list Z))) :
  length (argwhere (gt0 mask)) = count_positive mask.
Proof. apply argwhere3_length. Qed.

(** The traversal lists every voxel of the array under its position. *)
Lemma enumerate_In {A : Type} (l : list A) : forall s i a,
  In (i, a) (combine (seq s (length l)) l) <->
  (s <= i)%nat /\ nth_error l (i - s) = Some a.
Proof.
  induction l as [|b l IH]; intros s i a; simpl.
  - split; [contradiction|]. intros [_ H]. now destruct (i - s)%nat.
  - rewrite IH. split.
    + intros [E|[H1 H2]].
      * injection E as <- <-. split; [lia|]. now rewrite Nat.sub_diag.
      * split; [lia|].
        replace (i - s)%nat with (S (i - S s)) by lia. exact H2.
    + intros [H1 H2]. destruct (Nat.eq_dec i s) as [->|Hne].
      * rewrite Nat.sub_diag in H2. simpl in H2. injection H2 as ->. now left.
      * right. split; [lia|].
        replace (i - s)%nat with (S (i - S s)) in H2 by lia. exact H2.
Qed.

Lemma voxels_voxel (mask : list (list (list Z))) (z y x : nat) (v : Z) :
  In ((z, y, x), v) (voxels mask) <-> voxel mask z y x = Some v.
Proof.
  unfold voxels, voxel, enumerate. rewrite in_flat_map. split.
  - intros [[z' p] [Hz H]]. apply enumerate_In in Hz. destruct Hz as [_ Hz].
    rewrite Nat.sub_0_r in Hz. simpl in H. rewrite in_flat_map in H.
    destruct H as [[y' r] [Hy H]]. apply enumerate_In in Hy.
    destruct Hy as [_ Hy]. rewrite Nat.sub_0_r in Hy. simpl in H.
    rewrite in_map_iff in H. destruct H as [[x' v'] [E Hx]].
    apply enumerate_In in Hx. destruct Hx as [_ Hx].
    rewrite Nat.sub_0_r in Hx. simpl in E. injection E as <- <- <- <-.
    now rewrite Hz, Hy.
  - intros H.
    destruct (nth_error mask z) as [p|] eqn:Ez; [|discriminate].
    destruct (nth_error p y) as [r|] eqn:Ey; [|discriminate].
    exists (z, p). split.
    + apply enumerate_In. rewrite Nat.sub_0_r. split; [lia|exact Ez].
    + simpl. rewrite in_flat_map. exists (y, r). split.
      * apply enumerate_In. rewrite Nat.sub_0_r. split; [lia|exact Ey].
      * simpl. rewrite in_map_iff. exists (x, v). split; [reflexivity|].
        apply enumerate_In. rewrite Nat.sub_0_r. split; [lia|exact H].
Qed.

End Argwhere.

(** ** Which positions argwhere lists, and how often *)

Section ArgwhereMembers.

Lemma argwhere1_In (row : list bool) : forall x0 x,
  In x (argwhere1 x0 row) <->
  (x0 <= x)%nat /\ nth_error row (x - x0) = Some true.
Proof.
  induction row as [|b row IH]; intros x0 x; simpl.
  - split; [contradiction|]. intros [_ H]. now destruct (x - x0)%nat.
  - rewrite in_app_iff, IH. split.
    + intros [H|[H1 H2]].
      * destruct b; simpl in H; [|contradiction].
        destruct H as [<-|[]]. split; [lia|].
        now rewrite Nat.sub_diag.
      * split; [lia|].
        replace (x - x0)%nat with (S (x - S x0)) by lia. exact H2.
    + intros [H1 H2]. destruct (Nat.eq_dec x x0) as [->|Hne].
      * rewrite Nat.sub_diag in H2. simpl in H2.
        injection H2 as ->. left. now left.
      * right. split; [lia|].
        replace (x - x0)%nat with (S (x - S x0)) in H2 by lia. exact H2.
Qed.

Lemma argwhere2_In (plane : list (list bool)) : forall y0 y x,
  In (y, x) (argwhere2 y0 plane) <->
  (y0 <= y)%nat /\
  exists row, nth_error plane (y - y0) = Some row /\ In x (argwhere1 0 row).
Proof.
  induction plane as [|r plane IH]; intros y0 y x; simpl.
  - split; [contradiction|]. intros [_ [row [H _]]]. now destruct (y - y0)%nat.
  - rewrite in_app_iff, IH, in_map_iff. split.
    + intros [[x' [E H]]|[H1 [row [H2 H3]]]].
      * injection E as <- <-. split; [lia|]. exists r.
        now rewrite Nat.sub_diag.
      * split; [lia|]. exists row.
        replace (y - y0)%nat with (S (y - S y0)) by lia. now split.
    + intros [H1 [row [H2 H3]]]. destruct (Nat.eq_dec y y0) as [->|Hne].
      * rewrite Nat.sub_diag in H2. simpl in H2. injection H2 as ->.
        left. now exists x.
      * right. split; [lia|]. exists row.
        replace (y - y0)%nat with (S (y - S y0)) in H2 by lia. now split.
Qed.

Lemma argwhere3_In (vol : list (list (list bool))) : forall z0 z y x,
  In (z, y, x) (argwhere3 z0 vol) <->
  (z0 <= z)%nat /\
  exists plane, nth_error vol (z - z0) = Some plane /\
                In (y, x) (argwhere2 0 plane).
Proof.
  induction vol as [|p vol IH]; intros z0 z y x; simpl.
  - split; [contradiction|]. intros [_ [pl [H _]]]. now destruct (z - z0)%nat.
  - rewrite in_app_iff, IH, in_map_iff. split.
    + intros [[[y' x'] [E H]]|[H1 [pl [H2 H3]]]].
      * simpl in E. injection E as <- <- <-. split; [lia|]. exists p.
        now rewrite Nat.sub_diag.
      * split; [lia|]. exists pl.
        replace (z - z0)%nat with (S (z - S z0)) by lia. now split.
    + intros [H1 [pl [H2 H3]]]. destruct (Nat.eq_dec z z0) as [->|Hne].
      * rewrite Nat.sub_diag in H2. simpl in H2. injection H2 as ->.
        left. now exists (y, x).
      * right. split; [lia|]. exists pl.
        replace (z - z0)%nat with (S (z - S z0)) in H2 by lia. now split.
Qed.

(** The positions listed for [mask > 0] are those of the voxels whose
    value exceeds zero. *)
Lemma argwhere_gt0_In (mask : list (list (list Z))) (z y x : nat) :
  In (z, y, x) (argwhere (gt0 mask)) <->
  exists v, voxel mask z y x = Some v /\ (0 < v)%Z.
Proof.
  unfold argwhere, gt0, voxel.
  rewrite argwhere3_In, Nat.sub_0_r, nth_error_map. split.
  - intros [_ [pl [H1 H2]]].
    destruct (nth_error mask z) as [plane|]; [|discriminate].
    injection H1 as <-.
    apply argwhere2_In in H2. destruct H2 as [_ [row [H2 H3]]].
    rewrite Nat.sub_0_r, nth_error_map in H2.
    destruct (nth_error plane y) as [r|]; [|discriminate].
    injection H2 as <-.
    apply argwhere1_In in H3. destruct H3 as [_ H3].
    rewrite Nat.sub_0_r, nth_error_map in H3.
    destruct (nth_error r x) as [v|]; [|discriminate].
    injection H3 as H3. exists v. split; [reflexivity|].
    now apply Z.ltb_lt.
  - intros [v [H Hv]]. split; [lia|].
    destruct (nth_error mask z) as [plane|]; [|discriminate].
    eexists. split; [reflexivity|].
    apply argwhere2_In. split; [lia|].
    rewrite Nat.sub_0_r, nth_error_map.
    destruct (nth_error plane y) as [r|]; [|discriminate].
    eexists. split; [reflexivity|].
    apply argwhere1_In. split; [lia|].
    rewrite Nat.sub_0_r, nth_error_map, H. simpl.
    f_equal. now apply Z.ltb_lt.
Qed.

Lemma argwhere1_NoDup (row : list bool) : forall x0,
  NoDup (argwhere1 x0 row).
Proof.
  induction row as [|b row IH]; intros x0; simpl; [constructor|].
  destruct b; simpl; [|apply IH].
  constructor; [|apply IH].
  rewrite argwhere1_In. lia.
Qed.

Lemma NoDup_app_disjoint {A : Type} (l l' : list A) :
  NoDup l -> NoDup l' -> (forall a, In a l -> ~ In a l') -> NoDup (l ++ l').
Proof.
  induction l as [|a l IH]; simpl; intros Hl Hl' Hd; [exact Hl'|].
  inversion Hl as [|? ? Hn Hl0]; subst.
  constructor.
  - rewrite in_app_iff. intros [H|H]; [now apply Hn|].
    apply (Hd a); [now left|exact H].
  - apply IH; auto.
Qed.

Lemma NoDup_map_inj {A B : Type} (f : A -> B) (l : list A) :
  (forall a a', f a = f a' -> a = a') -> NoDup l -> NoDup (map f l).
Proof.
  intros Hf. induction 1 as [|a l Hn Hl IH]; simpl; constructor; auto.
  rewrite in_map_iff. intros [a' [E H]]. apply Hf in E. now subst.
Qed.

Lemma argwhere2_NoDup (plane : list (list bool)) : forall y0,
  NoDup (argwhere2 y0 plane).
Proof.
  induction plane as [|r plane IH]; intros y0; simpl; [constructor|].
  apply NoDup_app_disjoint.
  - apply NoDup_map_inj; [|apply argwhere1_NoDup].
    intros a a' E. now injection E.
  - apply IH.
  - intros [y x] H. rewrite in_map_iff in H.
    destruct H as [x' [E _]]. injection E as <- <-.
    rewrite argwhere2_In. lia.
Qed.

Lemma argwhere3_NoDup (vol : list (list (list bool))) : forall z0,
  NoDup (argwhere3 z0 vol).
Proof.
  induction vol as [|p vol IH]; intros z0; simpl; [constructor|].
  apply NoDup_app_disjoint.
  - apply NoDup_map_inj; [|apply argwhere2_NoDup].
    intros [y x] [y' x'] E. simpl in E. now injection E as -> ->.
  - apply IH.
  - intros [[z y] x] H. rewrite in_map_iff in H.
    destruct H as [[y' x'] [E _]]. simpl in E. injection E as <- <- <-.
    rewrite argwhere3_In. lia.
Qed.

(** A duplicate-free list whose members all equal p, and which holds
    p, is the list of p alone. *)
Lemma NoDup_singleton {A : Type} (p : A) (l : list A) :
  NoDup l -> In p l -> (forall q, In q l -> q = p) -> l = [p].
Proof.
  intros Hn Hp Hall. destruct l as [|a l]; [contradiction|].
  assert (a = p) as -> by (apply Hall; now left).
  destruct l as [|b l]; [reflexivity|].
  assert (b = p) as -> by (apply Hall; right; now left).
  inversion Hn as [|? ? Hnot _]; subst. exfalso. apply Hnot. now left.
Qed.

Lemma has_positive_cloud (img : Image) :
  has_positive (GetArrayFromImage img) <->
  convert_to_world_coordinates img <> [].
Proof.
  rewrite convert_rows. split.
  - intros [z [y [x [v H]]]] E.
    assert (Hin : In (z, y, x) (argwhere (gt0 (GetArrayFromImage img))))
      by (apply argwhere_gt0_In; now exists v).
    apply (in_map (fun p => world_point img (reversed p))) in Hin.
    rewrite E in Hin. contradiction.
  - intros Hne.
    destruct (argwhere (gt0 (GetArrayFromImage img))) as [|[[z y] x] l] eqn:E;
      [now elim Hne|].
    assert (Hin : In (z, y, x) (argwhere (gt0 (GetArrayFromImage img))))
      by (rewrite E; now left).
    apply argwhere_gt0_In in Hin. destruct Hin as [v Hv].
    now exists z, y, x, v.
Qed.

Lemma all_zero_cloud (img : Image) :
  all_zero (GetArrayFromImage img) -> convert_to_world_coordinates img = [].
Proof.
  intros Hzero.
  destruct (convert_to_world_coordinates img) eqn:E; [reflexivity|].
  assert (Hne : convert_to_world_coordinates img <> [])
    by (rewrite E; discriminate).
  apply has_positive_cloud in Hne.
  destruct Hne as [z [y [x [v [H1 H2]]]]].
  apply Hzero in H1. lia.
Qed.

End ArgwhereMembers.

(** ** convert_to_world_coordinates: what it returns *)

(** C2: the result has one world point per voxel whose value exceeds
    zero, in the traversal order of the mask, its length is the number
    of such voxels, and each point is origin + direction . (spacing o
    index) for the array position read in reverse, as (x, y, z). *)
Theorem convert_to_world_coordinates_spec (img : Image) :
  convert_to_world_coordinates img =
    map (fun pv => world_point img (reversed (fst pv)))
        (positive_voxels (GetArrayFromImage img)) /\
  length (convert_to_world_coordinates img) =
    count_positive (GetArrayFromImage img).
Proof.
  rewrite convert_rows. split.
  - now rewrite argwhere_positive_voxels, map_map.
  - rewrite length_map. apply argwhere_count.
Qed.

(** C6: a mask whose only positive voxel has index (i, j, k), stored at
    array position [k][j][i], with unit spacing, zero origin and
    identity direction, gives the single world point (i, j, k). *)
Theorem single_voxel_identity (mask : list (list (list Z))) (i j k : nat) (v : Z)
  (Hv : voxel mask k j i = Some v) (Hpos : (0 < v)%Z)
  (Honly : forall z y x v', voxel mask z y x = Some v' -> (0 < v')%Z ->
                            (z, y, x) = (k, j, i)) :
  convert_to_world_coordinates
    (mkImage (0, 0, 0) (1, 1, 1) (1, 0, 0, 0, 1, 0, 0, 0, 1) mask)
  = [(INR i, INR j, INR k)].
Proof.
  rewrite convert_rows. simpl GetArrayFromImage.
  rewrite (NoDup_singleton (k, j, i) (argwhere (gt0 mask))).
  - simpl. unfold world_point. simpl. f_equal. f_equal; [f_equal|]; ring.
  - apply argwhere3_NoDup.
  - apply argwhere_gt0_In. now exists v.
  - intros [[z y] x] H. apply argwhere_gt0_In in H.
    destruct H as [v' [H1 H2]]. now apply (Honly z y x v').
Qed.

Lemma single_voxel_identity_witness :
  convert_to_world_coordinates
    (mkImage (0, 0, 0) (1, 1, 1) (1, 0, 0, 0, 1, 0, 0, 0, 1)
             [[[0; 0]; [0; 0]]; [[0; 0]; [7; 0]]]%Z)
  = [(INR 0, INR 1, INR 1)].
Proof.
  apply (single_voxel_identity _ 0 1 1 7%Z).
  - reflexivity.
  - lia.
  - intros z y x v' H Hp.
    destruct z as [|[|[|z]]]; destruct y as [|[|[|y]]]; destruct x as [|[|[|x]]];
      simpl in H; try discriminate; injection H as <-; try lia; reflexivity.
Defined.

(** C7: a mask in which no voxel exceeds zero gives the empty point
    cloud. *)
Theorem all_zero_empty_cloud (img : Image)
  (Hzero : all_zero (GetArrayFromImage img)) :
  convert_to_world_coordinates img = [] /\
  length (convert_to_world_coordinates img) = 0%nat.
Proof.
  rewrite (all_zero_cloud img Hzero). now split.
Qed.

Lemma all_zero_empty_cloud_witness :
  convert_to_world_coordinates
    (mkImage (10, 0, 0) (2, 2, 2) (1, 0, 0, 0, 1, 0, 0, 0, 1)
             [[[0; 0]; [0; -1]]]%Z) = [] /\
  length (convert_to_world_coordinates
    (mkImage (10, 0, 0) (2, 2, 2) (1, 0, 0, 0, 1, 0, 0, 0, 1)
             [[[0; 0]; [0; -1]]]%Z)) = 0%nat.
Proof.
  apply all_zero_empty_cloud.
  intros z y x v H.
  destruct z as [|[|z]]; destruct y as [|[|[|y]]]; destruct x as [|[|[|x]]];
    simpl in H; try discriminate; injection H as <-; lia.
Defined.

(** ** Minima of lists *)

Section Minima.

Lemma is_min_unique (m m' : R) (l : list R) :
  is_min m l -> is_min m' l -> m = m'.
Proof.
  intros [Hin Hle] [Hin' Hle'].
  apply Rle_antisym; [now apply Hle|now apply Hle'].
Qed.

Lemma fold_Rmin_is_min (t : list R) : forall x,
  is_min (fold_left Rmin t x) (x :: t).
Proof.
  induction t as [|y t IH]; intros x; simpl.
  - split; [now left|]. intros z [<-|[]]. apply Rle_refl.
  - destruct (IH (Rmin x y)) as [Hin Hle]. split.
    + destruct Hin as [E|Hin]; [|now right; right].
      rewrite <- E. unfold Rmin. destruct (Rle_dec x y); [now left|right; now left].
    + intros z Hz.
      assert (Hxy : fold_left Rmin t (Rmin x y) <= Rmin x y)
        by (apply Hle; now left).
      destruct Hz as [<-|[<-|Hz]].
      * eapply Rle_trans; [exact Hxy|apply Rmin_l].
      * eapply Rle_trans; [exact Hxy|apply Rmin_r].
      * apply Hle. now right.
Qed.

Lemma min_list_is_min (l : list R) (m : R) :
  min_list l = Some m -> is_min m l.
Proof.
  destruct l as [|x t]; simpl; [discriminate|].
  intros E. injection E as <-. apply fold_Rmin_is_min.
Qed.

Lemma min_list_some (l : list R) :
  l <> [] -> exists m, min_list l = Some m.
Proof. destruct l; [congruence|]. intros _. simpl. eauto. Qed.

Lemma dist_le_refl (a : dist) : dist_le a a.
Proof. destruct a; simpl; [apply Rle_refl|exact I]. Qed.

Lemma dist_le_trans (a b c : dist) :
  dist_le a b -> dist_le b c -> dist_le a c.
Proof.
  destruct a, b, c; simpl; try tauto. apply Rle_trans.
Qed.

Lemma dmin_l (a b : dist) : dist_le (dmin a b) a.
Proof.
  destruct a, b; simpl; try exact I; [apply Rmin_l|apply Rle_refl].
Qed.

Lemma dmin_r (a b : dist) : dist_le (dmin a b) b.
Proof.
  destruct a, b; simpl; try exact I; [apply Rmin_r|apply Rle_refl].
Qed.

Lemma dmin_cases (a b : dist) : dmin a b = a \/ dmin a b = b.
Proof.
  destruct a, b; simpl; auto.
  unfold Rmin. destruct (Rle_dec r r0); auto.
Qed.

Lemma fold_dmin_least (t : list dist) : forall x,
  In (fold_left dmin t x) (x :: t) /\
  forall y, In y (x :: t) -> dist_le (fold_left dmin t x) y.
Proof.
  induction t as [|y t IH]; intros x; simpl.
  - split; [now left|]. intros z [<-|[]]. apply dist_le_refl.
  - destruct (IH (dmin x y)) as [Hin Hle]. split.
    + destruct Hin as [E|Hin]; [|now right; right].
      rewrite <- E. destruct (dmin_cases x y) as [->| ->];
        [now left|right; now left].
    + intros z Hz.
      assert (Hxy : dist_le (fold_left dmin t (dmin x y)) (dmin x y))
        by (apply Hle; now left).
      destruct Hz as [<-|[<-|Hz]].
      * eapply dist_le_trans; [exact Hxy|apply dmin_l].
      * eapply dist_le_trans; [exact Hxy|apply dmin_r].
      * apply Hle. now right.
Qed.

(** [a.min()] raises exactly on the empty array, and otherwise returns
    a least member. *)
Lemma np_min_least (a : list dist) (m : dist) :
  np_min a = Some m -> In m a /\ forall y, In y a -> dist_le m y.
Proof.
  destruct a as [|x t]; simpl; [discriminate|].
  intros E. injection E as <-. apply fold_dmin_least.
Qed.

Lemma np_min_some (a : list dist) : a <> [] -> exists m, np_min a = Some m.
Proof. destruct a; [congruence|]. intros _. simpl. eauto. Qed.

Lemma np_min_none (a : list dist) : np_min a = None <-> a = [].
Proof. destruct a; simpl; split; congruence. Qed.

End Minima.

(** ** Euclidean distance and the pairs of two clouds *)

Section Pairs.

Lemma norm2_nonneg (a b : point) : 0 <= norm2 a b.
Proof.
  destruct a as [[a0 a1] a2], b as [[b0 b1] b2]. apply sqrt_pos.
Qed.

Lemma norm2_sym (a b : point) : norm2 a b = norm2 b a.
Proof.
  destruct a as [[a0 a1] a2], b as [[b0 b1] b2]. unfold norm2.
  f_equal. ring.
Qed.

Lemma norm2_self (a : point) : norm2 a a = 0.
Proof.
  destruct a as [[a0 a1] a2]. unfold norm2.
  replace ((a0 - a0) * (a0 - a0) + (a1 - a1) * (a1 - a1) + (a2 - a2) * (a2 - a2))
    with 0 by ring.
  apply sqrt_0.
Qed.

Lemma pairwise_In (A B : arrN3 R) (r : R) :
  In r (pairwise A B) <-> exists a b, In a A /\ In b B /\ r = norm2 a b.
Proof.
  unfold pairwise. rewrite in_flat_map. split.
  - intros [a [Ha H]]. rewrite in_map_iff in H.
    destruct H as [b [E Hb]]. now exists a, b.
  - intros [a [b [Ha [Hb ->]]]]. exists a. split; [exact Ha|].
    now apply in_map.
Qed.

Lemma pairwise_nonempty (A B : arrN3 R) :
  A <> [] -> B <> [] -> pairwise A B <> [].
Proof.
  destruct A as [|a A]; [congruence|]. destruct B as [|b B]; [congruence|].
  intros _ _. simpl. discriminate.
Qed.

Lemma is_min_swap (A B : arrN3 R) (m : R) :
  is_min m (pairwise A B) -> is_min m (pairwise B A).
Proof.
  intros [Hin Hle]. split.
  - apply pairwise_In in Hin. destruct Hin as [a [b [Ha [Hb ->]]]].
    apply pairwise_In. exists b, a. now rewrite norm2_sym.
  - intros x Hx. apply Hle.
    apply pairwise_In in Hx. destruct Hx as [b [a [Hb [Ha ->]]]].
    apply pairwise_In. exists a, b. now rewrite norm2_sym.
Qed.

Lemma is_min_incl (A B A' B' : arrN3 R) (m m' : R) :
  incl A A' -> incl B B' ->
  is_min m (pairwise A B) -> is_min m' (pairwise A' B') -> m' <= m.
Proof.
  intros HA HB [Hin _] [_ Hle']. apply Hle'.
  apply pairwise_In in Hin. destruct Hin as [a [b [Ha [Hb ->]]]].
  apply pairwise_In. exists a, b. auto.
Qed.

End Pairs.

(** ** The linear scan meets the contract of the index *)

Section Scan.

Lemma scan_nearest (data : arrN3 R) (q : point) :
  nearest_distance data q (scan data q).
Proof.
  induction data as [|x data IH]; simpl; [reflexivity|].
  destruct (scan data q) as [r|] eqn:E; simpl.
  - destruct IH as [x' [Hin [-> Hle]]].
    unfold Rmin. destruct (Rle_dec (norm2 q x) (norm2 q x')) as [H|H].
    + exists x. split; [now left|]. split; [reflexivity|].
      intros y [<-|Hy]; [apply Rle_refl|].
      eapply Rle_trans; [exact H|now apply Hle].
    + exists x'. split; [now right|]. split; [reflexivity|].
      intros y [<-|Hy]; [lra|now apply Hle].
  - simpl in IH. subst data. exists x. split; [now left|].
    split; [reflexivity|]. intros y [<-|[]]. apply Rle_refl.
Qed.

Lemma scan_query_spec (data qs : arrN3 R) :
  Forall2 (nearest_distance data) qs (map (scan data) qs).
Proof.
  induction qs as [|q qs IH]; simpl; constructor; [apply scan_nearest|exact IH].
Qed.

End Scan.

#[export] Instance scan_index : SpatialIndex := {|
  tree := arrN3 R;
  cKDTree := fun data => data;
  query := fun t qs => map (scan t) qs;
  query_spec := scan_query_spec
|}.

(** ** The minimum over the distances the index reports *)

Section QueryMinimum.

Context {SI : SpatialIndex}.

Lemma Forall2_In_l {A B : Type} (P : A -> B -> Prop) (l : list A) (l' : list B) :
  Forall2 P l l' -> forall a, In a l -> exists b, In b l' /\ P a b.
Proof.
  induction 1 as [|x y l l' Hxy _ IH]; intros a Ha; [contradiction|].
  destruct Ha as [<-|Ha].
  - exists y. split; [now left|exact Hxy].
  - destruct (IH a Ha) as [b [Hb Hab]]. exists b. split; [now right|exact Hab].
Qed.

Lemma Forall2_In_r {A B : Type} (P : A -> B -> Prop) (l : list A) (l' : list B) :
  Forall2 P l l' -> forall b, In b l' -> exists a, In a l /\ P a b.
Proof.
  induction 1 as [|x y l l' Hxy _ IH]; intros b Hb; [contradiction|].
  destruct Hb as [<-|Hb].
  - exists x. split; [now left|exact Hxy].
  - destruct (IH b Hb) as [a [Ha Hab]]. exists a. split; [now right|exact Hab].
Qed.

Lemma query_nonempty (A B : arrN3 R) : A <> [] -> query (cKDTree B) A <> [].
Proof.
  intros HA E. pose proof (query_spec B A) as H. rewrite E in H.
  destruct A; [congruence|inversion H].
Qed.

Lemma query_empty (B : arrN3 R) : query (cKDTree B) [] = [].
Proof.
  pose proof (query_spec B []) as H. now inversion H.
Qed.

(** With both clouds non-empty the least reported distance is finite
    and is a least member of the pairwise distances. *)
Lemma query_min (A B : arrN3 R) :
  A <> [] -> B <> [] ->
  exists r, np_min (query (cKDTree B) A) = Some (Fin r) /\
            is_min r (pairwise A B).
Proof.
  intros HA HB.
  pose proof (query_spec B A) as Hq.
  destruct (np_min_some _ (query_nonempty A B HA)) as [m Hm].
  destruct (np_min_least _ _ Hm) as [Hin Hle].
  destruct (Forall2_In_r _ _ _ Hq m Hin) as [q [Hq_in Hnear]].
  destruct m as [r|]; [|now elim HB].
  exists r. split; [exact Hm|].
  destruct Hnear as [x [Hx [Er _]]]. split.
  - apply pairwise_In. now exists q, x.
  - intros d Hd. apply pairwise_In in Hd.
    destruct Hd as [a [b [Ha [Hb ->]]]].
    destruct (Forall2_In_l _ _ _ Hq a Ha) as [da [Hda Hna]].
    specialize (Hle da Hda).
    destruct da as [ra|]; [|now elim HB].
    destruct Hna as [_ [_ [_ Hall]]]. simpl in Hle.
    eapply Rle_trans; [exact Hle|now apply Hall].
Qed.

(** An empty first cloud: there is no distance to take the minimum of. *)
Lemma minimum_raises (img1 img2 : Image) :
  convert_to_world_coordinates img1 = [] -> minimum img1 img2 = None.
Proof.
  intros E. unfold minimum, _compute_distances.
  rewrite E, query_empty. reflexivity.
Qed.

(** An empty second cloud under a non-empty first: every distance is
    infinite, and so is their minimum. *)
Lemma minimum_infinite (img1 img2 : Image) :
  convert_to_world_coordinates img1 <> [] ->
  convert_to_world_coordinates img2 = [] ->
  minimum img1 img2 = Some Inf.
Proof.
  intros HA E. unfold minimum, _compute_distances. rewrite E.
  destruct (np_min_some _ (query_nonempty _ [] HA)) as [m Hm].
  rewrite Hm. f_equal.
  destruct (np_min_least _ _ Hm) as [Hin _].
  destruct (Forall2_In_r _ _ _ (query_spec [] _) m Hin) as [q [_ Hnear]].
  destruct m as [r|]; [|reflexivity].
  destruct Hnear as [x [[] _]].
Qed.

Lemma minimum_is_min (img1 img2 : Image) :
  has_positive (GetArrayFromImage img1) ->
  has_positive (GetArrayFromImage img2) ->
  exists r, minimum img1 img2 = Some (Fin r) /\
            is_min r (pairwise (convert_to_world_coordinates img1)
                               (convert_to_world_coordinates img2)).
Proof.
  intros H1 H2. apply has_positive_cloud in H1, H2.
  now apply query_min.
Qed.

End QueryMinimum.

(** ** Mask growth *)

Section Growth.

Lemma Forall2_nth_error {A : Type} (P : A -> A -> Prop) (l l' : list A) :
  Forall2 P l l' -> forall n a, nth_error l n = Some a ->
  exists b, nth_error l' n = Some b /\ P a b.
Proof.
  induction 1 as [|x y l l' Hxy _ IH]; intros n a Hn.
  - now destruct n.
  - destruct n as [|n]; simpl in *.
    + injection Hn as <-. now exists y.
    + now apply IH.
Qed.

Lemma grows_voxel (m m' : list (list (list Z))) (z y x : nat) (v : Z) :
  grows m m' -> voxel m z y x = Some v -> (0 < v)%Z ->
  exists v', voxel m' z y x = Some v' /\ (0 < v')%Z.
Proof.
  unfold grows, voxel. intros Hg Hv Hpos.
  destruct (nth_error m z) as [plane|] eqn:Ez; [|discriminate].
  destruct (Forall2_nth_error _ _ _ Hg z plane Ez) as [plane' [-> Hp]].
  destruct (nth_error plane y) as [row|] eqn:Ey; [|discriminate].
  destruct (Forall2_nth_error _ _ _ Hp y row Ey) as [row' [-> Hr]].
  destruct (Forall2_nth_error _ _ _ Hr x v Hv) as [v' [-> Hv']].
  exists v'. split; [reflexivity|auto].
Qed.

Lemma world_point_metadata (img img' : Image) (p : row3 nat) :
  GetOrigin img' = GetOrigin img ->
  GetSpacing img' = GetSpacing img ->
  GetDirection img' = GetDirection img ->
  world_point img' p = world_point img p.
Proof.
  intros Eo Es Ed. unfold world_point. now rewrite Eo, Es, Ed.
Qed.

(** Growing the mask only adds points to the cloud. *)
Lemma grown_incl (img img' : Image) :
  grown img img' ->
  incl (convert_to_world_coordinates img) (convert_to_world_coordinates img').
Proof.
  intros [Eo [Es [Ed Hg]]] q. rewrite !convert_rows, !in_map_iff.
  intros [[[z y] x] [<- Hin]]. exists (z, y, x). split.
  - now apply world_point_metadata.
  - apply argwhere_gt0_In in Hin. destruct Hin as [v [Hv Hpos]].
    apply argwhere_gt0_In. eapply grows_voxel; eauto.
Qed.

Lemma grown_has_positive (img img' : Image) :
  grown img img' -> has_positive (GetArrayFromImage img) ->
  has_positive (GetArrayFromImage img').
Proof.
  intros [_ [_ [_ Hg]]] [z [y [x [v [Hv Hpos]]]]].
  destruct (grows_voxel _ _ _ _ _ _ Hg Hv Hpos) as [v' Hv'].
  now exists z, y, x, v'.
Qed.

End Growth.

(** ** The specification's worked examples, on the reference index *)

Example sample_scaled_point :
  convert_to_world_coordinates sample_scaled = [(12, 0, 0)].
Proof.
  rewrite convert_rows. cbn. f_equal. f_equal; [f_equal|]; ring.
Qed.

Example sample_minimum : minimum sample_a sample_b = Some (Fin 3).
Proof.
  unfold minimum, _compute_distances. rewrite !convert_rows. cbn.
  do 2 f_equal.
  match goal with |- sqrt ?e = _ => replace e with (3 * 3) by ring end.
  apply sqrt_square. lra.
Qed.

Example sample_grown_minimum : minimum sample_a_grown sample_b = Some (Fin 2).
Proof.
  unfold minimum, _compute_distances. rewrite !convert_rows. cbn.
  do 2 f_equal.
  match goal with
  | |- Rmin (sqrt ?e) (sqrt ?f) = _ =>
      replace e with (3 * 3) by ring; replace f with (2 * 2) by ring
  end.
  rewrite !sqrt_square by lra. apply Rmin_right. lra.
Qed.

Lemma sample_a_positive : has_positive (GetArrayFromImage sample_a).
Proof. exists 0%nat, 0%nat, 0%nat, 1%Z. split; [reflexivity|lia]. Qed.

Lemma sample_b_positive : has_positive (GetArrayFromImage sample_b).
Proof. exists 0%nat, 0%nat, 3%nat, 1%Z. split; [reflexivity|lia]. Qed.

Lemma sample_empty_zero : all_zero (GetArrayFromImage sample_empty).
Proof.
  intros z y x v H.
  destruct z as [|z]; [|now destruct z].
  destruct y as [|y]; [|now destruct y].
  do 4 (destruct x as [|x]; [injection H as <-; lia|]).
  now destruct x.
Qed.

Lemma sample_a_grows : grown sample_a sample_a_grown.
Proof.
  unfold grown. repeat split.
  unfold grows. simpl. repeat constructor; lia.
Qed.

Lemma grown_refl (img : Image) : grown img img.
Proof.
  unfold grown, grows. repeat split.
  induction (GetArrayFromImage img) as [|p m IHm]; constructor; [|exact IHm].
  induction p as [|r p IHp]; constructor; [|exact IHp].
  induction r as [|v r IHr]; constructor; [auto|exact IHr].
Qed.

(** ** minimum: what it returns *)

Section MinimumProperties.

Context {SI : SpatialIndex}.

(** C1: when both masks hold a positive voxel, minimum returns the
    least of the Euclidean distances of all pairs (a in cloud A, b in
    cloud B), the brute-force minimum. *)
Theorem minimum_is_brute_force (img1 img2 : Image)
  (H1 : has_positive (GetArrayFromImage img1))
  (H2 : has_positive (GetArrayFromImage img2)) :
  exists m,
    brute_force_min (convert_to_world_coordinates img1)
                    (convert_to_world_coordinates img2) = Some m /\
    minimum img1 img2 = Some (Fin m).
Proof.
  destruct (minimum_is_min img1 img2 H1 H2) as [r [Hr Hmin]].
  apply has_positive_cloud in H1, H2.
  destruct (min_list_some _ (pairwise_nonempty _ _ H1 H2)) as [m Hm].
  exists m. split; [exact Hm|].
  rewrite Hr. do 2 f_equal.
  eapply is_min_unique; [exact Hmin|].
  now apply min_list_is_min.
Qed.

(** C4: with an empty cloud, minimum never yields a finite distance,
    and the two sides differ.  An empty first cloud: the index answers
    the empty query with the empty array, and reading minimum raises
    (the minimum of a zero-size array).  An empty second cloud under a
    non-empty first: the index answers every query point with an
    infinite distance, and minimum returns that infinity without
    raising.  Both outcomes are those of the two library calls on the
    empty input, unguarded. *)
Theorem empty_cloud_outcome (img1 img2 : Image) :
  (all_zero (GetArrayFromImage img1) ->
   _compute_distances img1 img2 = [] /\ minimum img1 img2 = None) /\
  (has_positive (GetArrayFromImage img1) ->
   all_zero (GetArrayFromImage img2) ->
   _compute_distances img1 img2 <> [] /\
   Forall (fun d => d = Inf) (_compute_distances img1 img2) /\
   minimum img1 img2 = Some Inf) /\
  (all_zero (GetArrayFromImage img1) \/ all_zero (GetArrayFromImage img2) ->
   forall r, minimum img1 img2 <> Some (Fin r)).
Proof.
  assert (A1 : all_zero (GetArrayFromImage img1) ->
               _compute_distances img1 img2 = [] /\ minimum img1 img2 = None).
  { intros H. apply all_zero_cloud in H. split.
    - unfold _compute_distances. rewrite H. apply query_empty.
    - now apply minimum_raises. }
  assert (A2 : has_positive (GetArrayFromImage img1) ->
               all_zero (GetArrayFromImage img2) ->
               _compute_distances img1 img2 <> [] /\
               Forall (fun d => d = Inf) (_compute_distances img1 img2) /\
               minimum img1 img2 = Some Inf).
  { intros H1 H2. apply has_positive_cloud in H1. apply all_zero_cloud in H2.
    repeat split.
    - unfold _compute_distances. now apply query_nonempty.
    - apply Forall_forall. intros d Hd. unfold _compute_distances in Hd.
      rewrite H2 in Hd.
      destruct (Forall2_In_r _ _ _ (query_spec [] _) d Hd) as [q [_ Hn]].
      destruct d as [r|]; [|reflexivity].
      destruct Hn as [x [[] _]].
    - now apply minimum_infinite. }
  split; [exact A1|]. split; [exact A2|].
  intros H r.
  destruct (convert_to_world_coordinates img1) eqn:E1.
  - rewrite (minimum_raises img1 img2 E1). discriminate.
  - assert (P1 : has_positive (GetArrayFromImage img1))
      by (apply has_positive_cloud; rewrite E1; discriminate).
    destruct H as [H|H].
    + apply all_zero_cloud in H. congruence.
    + destruct (A2 P1 H) as [_ [_ ->]]. discriminate.
Qed.

(** C5: when both masks hold a positive voxel, swapping the two images
    gives the same minimum. *)
Theorem minimum_symmetric (img1 img2 : Image)
  (H1 : has_positive (GetArrayFromImage img1))
  (H2 : has_positive (GetArrayFromImage img2)) :
  exists r, minimum img1 img2 = Some (Fin r) /\
            minimum img2 img1 = Some (Fin r).
Proof.
  destruct (minimum_is_min img1 img2 H1 H2) as [r [Hr Hmin]].
  destruct (minimum_is_min img2 img1 H2 H1) as [r' [Hr' Hmin']].
  exists r. split; [exact Hr|].
  rewrite Hr'. do 2 f_equal.
  eapply is_min_unique; [exact Hmin'|].
  now apply is_min_swap.
Qed.

(** C8: the same image on both sides, with a positive voxel in its
    mask, has minimum exactly 0. *)
Theorem minimum_same_image (img : Image)
  (H : has_positive (GetArrayFromImage img)) :
  minimum img img = Some (Fin 0).
Proof.
  destruct (minimum_is_min img img H H) as [r [Hr [Hin Hle]]].
  rewrite Hr. do 2 f_equal.
  apply has_positive_cloud in H.
  destruct (convert_to_world_coordinates img) as [|a A] eqn:E; [congruence|].
  apply Rle_antisym.
  - apply Hle. apply pairwise_In. exists a, a.
    rewrite norm2_self. repeat split; now left.
  - apply pairwise_In in Hin. destruct Hin as [p [q [_ [_ ->]]]].
    apply norm2_nonneg.
Qed.

(** C9: when both masks hold a positive voxel, minimum is a
    non-negative number. *)
Theorem minimum_nonneg (img1 img2 : Image)
  (H1 : has_positive (GetArrayFromImage img1))
  (H2 : has_positive (GetArrayFromImage img2)) :
  exists r, minimum img1 img2 = Some (Fin r) /\ 0 <= r.
Proof.
  destruct (minimum_is_min img1 img2 H1 H2) as [r [Hr [Hin _]]].
  exists r. split; [exact Hr|].
  apply pairwise_In in Hin. destruct Hin as [p [q [_ [_ ->]]]].
  apply norm2_nonneg.
Qed.

(** C10: turning more voxels positive, in either image or in both,
    while the positive ones stay positive, never increases minimum. *)
Theorem minimum_antitone (img1 img2 img1' img2' : Image)
  (H1 : has_positive (GetArrayFromImage img1))
  (H2 : has_positive (GetArrayFromImage img2))
  (G1 : grown img1 img1') (G2 : grown img2 img2') :
  exists r r', minimum img1 img2 = Some (Fin r) /\
               minimum img1' img2' = Some (Fin r') /\
               r' <= r.
Proof.
  destruct (minimum_is_min img1 img2 H1 H2) as [r [Hr Hmin]].
  destruct (minimum_is_min img1' img2'
              (grown_has_positive _ _ G1 H1) (grown_has_positive _ _ G2 H2))
    as [r' [Hr' Hmin']].
  exists r, r'. repeat split; [exact Hr|exact Hr'|].
  eapply is_min_incl; [apply grown_incl, G1|apply grown_incl, G2| |]; eassumption.
Qed.

End MinimumProperties.

Lemma minimum_is_brute_force_witness :
  exists m,
    brute_force_min (convert_to_world_coordinates sample_a)
                    (convert_to_world_coordinates sample_b) = Some m /\
    minimum sample_a sample_b = Some (Fin m).
Proof.
  apply minimum_is_brute_force;
    [exact sample_a_positive|exact sample_b_positive].
Defined.

Lemma empty_cloud_outcome_witness :
  (_compute_distances sample_empty sample_b = [] /\
   minimum sample_empty sample_b = None) /\
  (_compute_distances sample_a sample_empty <> [] /\
   Forall (fun d => d = Inf) (_compute_distances sample_a sample_empty) /\
   minimum sample_a sample_empty = Some Inf) /\
  forall r, minimum sample_a sample_empty <> Some (Fin r).
Proof.
  split; [|split].
  - apply (proj1 (empty_cloud_outcome sample_empty sample_b)).
    exact sample_empty_zero.
  - apply (proj1 (proj2 (empty_cloud_outcome sample_a sample_empty)));
      [exact sample_a_positive|exact sample_empty_zero].
  - apply (proj2 (proj2 (empty_cloud_outcome sample_a sample_empty))).
    right. exact sample_empty_zero.
Defined.

(** C4 as stated fails: over an empty second cloud the read of minimum
    does not raise, it returns a value, the infinite distance. *)
Lemma empty_second_cloud_returns :
  minimum sample_a sample_empty = Some Inf /\
  minimum sample_a sample_empty <> None.
Proof. split; [reflexivity|discriminate]. Qed.

Lemma minimum_symmetric_witness :
  exists r, minimum sample_a sample_b = Some (Fin r) /\
            minimum sample_b sample_a = Some (Fin r).
Proof.
  apply minimum_symmetric;
    [exact sample_a_positive|exact sample_b_positive].
Defined.

Lemma minimum_same_image_witness : minimum sample_b sample_b = Some (Fin 0).
Proof. apply minimum_same_image. exact sample_b_positive. Defined.

Lemma minimum_nonneg_witness :
  exists r, minimum sample_a sample_b = Some (Fin r) /\ 0 <= r.
Proof.
  apply minimum_nonneg; [exact sample_a_positive|exact sample_b_positive].
Defined.

Lemma minimum_antitone_witness :
  exists r r', minimum sample_a sample_b = Some (Fin r) /\
               minimum sample_a_grown sample_b = Some (Fin r') /\
               r' <= r.
Proof.
  apply minimum_antitone;
    [exact sample_a_positive|exact sample_b_positive
    |exact sample_a_grows|apply grown_refl].
Defined.

(** ** The two caches *)

Section Memo.

Context {SI : SpatialIndex}.

Lemma count_app (e : event) (l l' : list event) :
  count e (l ++ l') = (count e l + count e l')%nat.
Proof. unfold count. now rewrite filter_app, length_app. Qed.

Lemma count_one (e e' : event) :
  count e [e'] = if event_eqb e e' then 1%nat else 0%nat.
Proof. unfold count. simpl. now destruct (event_eqb e e'). Qed.

Lemma cached_store (o o0 : obj) (i : Distances) (w w' : World) :
  heap w' = store o i (heap w) ->
  cached w' o0 =
  if Nat.eqb o0 o
  then match dict_minimum i with Some _ => true | None => false end
  else cached w o0.
Proof.
  intros E. unfold cached. rewrite E. unfold store.
  now destruct (Nat.eqb o0 o).
Qed.

Lemma cached_heap (o0 : obj) (w w' : World) :
  heap w' = heap w -> cached w' o0 = cached w o0.
Proof. intros E. unfold cached. now rewrite E. Qed.

Lemma inv_init : reachable_inv init.
Proof.
  constructor; simpl; try reflexivity; try discriminate.
  intros o H. now elim H.
Qed.

Lemma inv_new (i1 i2 : Image) (w : World) :
  reachable_inv w -> reachable_inv (snd (new i1 i2 w)).
Proof.
  intros [Im Id Il Ih Is].
  assert (Hfresh : cached w (next w) = false).
  { unfold cached. destruct (heap w (next w)) eqn:E; [|reflexivity].
    assert (next w < next w)%nat by (apply Ih; congruence). lia. }
  assert (Hc : forall o, cached (snd (new i1 i2 w)) o = cached w o).
  { intros o. rewrite (cached_store (next w) o (mkDistances i1 i2 None) w)
      by reflexivity.
    destruct (Nat.eqb_spec o (next w)) as [->|]; simpl; congruence. }
  constructor; intros o; rewrite ?Hc; simpl.
  - apply Im.
  - apply Id.
  - apply Il.
  - unfold store. destruct (Nat.eqb_spec o (next w)) as [->|]; [lia|].
    intros H. apply Ih in H. lia.
  - intros d H. apply Is in H. lia.
Qed.

Lemma inv_mutate (o : obj) (i1 i2 : Image) (w : World) :
  reachable_inv w -> reachable_inv (mutate o i1 i2 w).
Proof.
  intros [Im Id Il Ih Is]. unfold mutate.
  destruct (heap w o) as [self|] eqn:E; [|now constructor].
  assert (Hc : forall o0,
    cached {| heap := store o (mkDistances i1 i2 (dict_minimum self)) (heap w);
              next := next w; lru := lru w; log := log w |} o0 = cached w o0).
  { intros o0.
    rewrite (cached_store o o0 (mkDistances i1 i2 (dict_minimum self)) w)
      by reflexivity.
    destruct (Nat.eqb_spec o0 o) as [->|]; [|reflexivity].
    unfold cached. now rewrite E. }
  constructor; intros o0; rewrite ?Hc; simpl.
  - apply Im.
  - apply Id.
  - apply Il.
  - unfold store. destruct (Nat.eqb_spec o0 o) as [->|]; [|apply Ih].
    intros _. apply Ih. congruence.
  - apply Is.
Qed.

(** The wrapper either hits, and changes nothing, or runs the body once
    and takes over the slot. *)
Lemma call_compute_distances_cases (o : obj) (self : Distances) (w : World) :
  (exists d, lru w = Some (o, d) /\ call_compute_distances o self w = (d, w)) \/
  ((forall d, lru w <> Some (o, d)) /\
   call_compute_distances o self w =
   (_compute_distances (img_1 self) (img_2 self),
    {| heap := heap w; next := next w;
       lru := Some (o, _compute_distances (img_1 self) (img_2 self));
       log := log w ++ [Computed_distances o] |})).
Proof.
  unfold call_compute_distances.
  destruct (lru w) as [[o' d]|] eqn:E.
  - destruct (Nat.eqb_spec o' o) as [->|Hne].
    + left. now exists d.
    + right. split; [congruence|reflexivity].
  - right. split; [congruence|reflexivity].
Qed.

Lemma inv_get_minimum (o : obj) (w : World) :
  reachable_inv w -> reachable_inv (snd (get_minimum o w)).
Proof.
  intros Hw. pose proof Hw as [Im Id Il Ih Is]. unfold get_minimum.
  assert (Hlive : heap w o <> None -> (o < next w)%nat) by apply Ih.
  destruct (heap w o) as [self|] eqn:E; [|exact Hw].
  destruct (dict_minimum self) as [v|] eqn:Ev; [exact Hw|].
  assert (Hnc : cached w o = false) by (unfold cached; now rewrite E, Ev).
  destruct (call_compute_distances_cases o self w)
    as [[d [Hl ->]]|[Hl ->]];
    [destruct (np_min d) as [v|]
    |destruct (np_min (_compute_distances (img_1 self) (img_2 self))) as [v|]];
    simpl.
  - (* hit, a value *)
    assert (Hc : forall o0 w',
      heap w' = store o (mkDistances (img_1 self) (img_2 self) (Some v)) (heap w) ->
      cached w' o0 = if Nat.eqb o0 o then true else cached w o0)
      by (intros o0 w' Hh; now rewrite (cached_store o o0 _ w w' Hh)).
    constructor; intros o0; simpl;
      rewrite ?count_app, ?count_one, ?(Hc o0) by reflexivity; simpl.
    + rewrite Im. destruct (Nat.eqb_spec o0 o) as [->|];
        [rewrite Hnc; reflexivity|apply Nat.add_0_r].
    + rewrite !Nat.add_0_r. intros Hr.
      destruct (Nat.eqb_spec o0 o) as [->|]; [|now apply Id].
      specialize (Il o d Hl). rewrite (Id o Hr), Hnc in Il. lia.
    + intros d0 Hd0. rewrite Nat.add_0_r. now apply (Il o0 d0).
    + unfold store. destruct (Nat.eqb_spec o0 o) as [->|]; [|apply Ih].
      intros _. apply Ih. congruence.
    + apply Is.
  - (* hit, the minimum raises *)
    constructor; intros o0; simpl; rewrite ?count_app, ?count_one; simpl;
      change (cached _ o0) with (cached w o0).
    + rewrite Im. apply Nat.add_0_r.
    + rewrite Nat.add_0_r. intros Hr.
      destruct (Nat.eqb_spec o0 o) as [Heq|Hne]; [lia|].
      rewrite Nat.add_0_r in Hr. now apply Id.
    + intros d0 Hd0. rewrite Nat.add_0_r. now apply (Il o0 d0).
    + apply Ih.
    + apply Is.
  - (* miss, a value *)
    assert (Hc : forall o0 w',
      heap w' = store o (mkDistances (img_1 self) (img_2 self) (Some v)) (heap w) ->
      cached w' o0 = if Nat.eqb o0 o then true else cached w o0)
      by (intros o0 w' Hh; now rewrite (cached_store o o0 _ w w' Hh)).
    constructor; intros o0; simpl;
      rewrite ?count_app, ?count_one, ?(Hc o0) by reflexivity; simpl.
    + rewrite Im. destruct (Nat.eqb_spec o0 o) as [->|];
        [rewrite Hnc; reflexivity|now rewrite !Nat.add_0_r].
    + rewrite !Nat.add_0_r. intros Hr.
      destruct (Nat.eqb_spec o0 o) as [->|].
      * now rewrite (Id o Hr), Hnc.
      * rewrite Nat.add_0_r. now apply Id.
    + intros d0 Hd0. injection Hd0 as <- <-.
      rewrite Nat.eqb_refl. lia.
    + unfold store. destruct (Nat.eqb_spec o0 o) as [->|]; [|apply Ih].
      intros _. apply Ih. congruence.
    + intros d0 Hd0. injection Hd0 as <- <-. apply Hlive. congruence.
  - (* miss, the minimum raises *)
    constructor; intros o0; simpl; rewrite ?count_app, ?count_one; simpl;
      change (cached _ o0) with (cached w o0).
    + rewrite Im. now rewrite !Nat.add_0_r.
    + rewrite !Nat.add_0_r. intros Hr.
      destruct (Nat.eqb_spec o0 o) as [Heq|Hne]; [lia|].
      rewrite !Nat.add_0_r in *. now apply Id.
    + intros d0 Hd0. injection Hd0 as <- <-.
      rewrite Nat.eqb_refl. lia.
    + apply Ih.
    + intros d0 Hd0. injection Hd0 as <- <-. apply Hlive. congruence.
Qed.

Lemma inv_step (w : World) (a : op) : reachable_inv w -> reachable_inv (step w a).
Proof.
  destruct a; simpl;
    [apply inv_new|apply inv_get_minimum|apply inv_mutate].
Qed.

Lemma inv_run (ops : list op) : forall w,
  reachable_inv w -> reachable_inv (run ops w).
Proof.
  induction ops as [|a ops IH]; intros w Hw; simpl; [exact Hw|].
  apply IH. now apply inv_step.
Qed.

(** X12: the first read of [minimum] on a new instance, in any world
    reached from the initial one, returns what the body computes from
    the two images the instance was built from. *)
Lemma first_read (ops : list op) (i1 i2 : Image) :
  fst (get_minimum (next (run ops init)) (snd (new i1 i2 (run ops init)))) =
  minimum i1 i2.
Proof.
  pose proof (inv_run ops init inv_init) as Hw.
  set (w := run ops init) in *.
  unfold get_minimum. simpl heap. unfold store at 1. rewrite Nat.eqb_refl.
  simpl dict_minimum.
  destruct (call_compute_distances_cases (next w) (mkDistances i1 i2 None)
              (snd (new i1 i2 w))) as [[d [Hl _]]|[_ ->]].
  - simpl in Hl. apply (inv_slot w Hw) in Hl. lia.
  - simpl img_1. simpl img_2. fold (minimum i1 i2).
    now destruct (minimum i1 i2).
Qed.

(** A stored minimum is returned as it is, and the world stays as it
    is: no body runs. *)
Lemma stored_get (o : obj) (v : dist) (w : World) :
  stored w o v -> get_minimum o w = (Some v, w).
Proof.
  intros [[self [E Ev]] _]. unfold get_minimum. now rewrite E, Ev.
Qed.

(** Once read, stored. *)
Lemma get_stored (o : obj) (v : dist) (w w' : World) :
  reachable_inv w -> get_minimum o w = (Some v, w') -> stored w' o v.
Proof.
  intros Hw. unfold get_minimum.
  destruct (heap w o) as [self|] eqn:E; [|discriminate].
  assert (Hlt : (o < next w)%nat) by (apply (inv_heap w Hw); congruence).
  destruct (dict_minimum self) as [v0|] eqn:Ev.
  - intros H. injection H as <- <-. split; [now exists self|exact Hlt].
  - destruct (call_compute_distances_cases o self w)
      as [[d [_ ->]]|[_ ->]];
      [destruct (np_min d) as [v0|]
      |destruct (np_min (_compute_distances (img_1 self) (img_2 self))) as [v0|]];
      try discriminate;
      intros H; injection H as <- <-; (split; [|exact Hlt]); simpl;
      eexists; (split; [unfold store; now rewrite Nat.eqb_refl|reflexivity]).
Qed.

(** No operation removes or replaces a stored minimum. *)
Lemma stored_step (o : obj) (v : dist) (w : World) (a : op) :
  stored w o v -> stored (step w a) o v.
Proof.
  intros [[self [E Ev]] Hlt]. destruct a as [i1 i2|o1|o1 i1 i2]; simpl.
  - split; [|simpl; lia]. exists self. split; [|exact Ev].
    simpl. unfold store.
    destruct (Nat.eqb_spec o (next w)) as [Heq|Hne]; [lia|exact E].
  - unfold get_minimum.
    destruct (heap w o1) as [self1|] eqn:E1; [|split; [now exists self|exact Hlt]].
    destruct (dict_minimum self1) as [v1|] eqn:Ev1;
      [split; [now exists self|exact Hlt]|].
    assert (Hne : o <> o1) by (intros ->; congruence).
    destruct (call_compute_distances_cases o1 self1 w)
      as [[d [_ ->]]|[_ ->]];
      [destruct (np_min d) as [v0|]
      |destruct (np_min (_compute_distances (img_1 self1) (img_2 self1))) as [v0|]];
      (split; [|exact Hlt]); exists self; (split; [|exact Ev]); simpl;
      try exact E; unfold store;
      (destruct (Nat.eqb_spec o o1) as [Heq|_]; [contradiction|exact E]).
  - unfold mutate.
    destruct (heap w o1) as [self1|] eqn:E1; [|split; [now exists self|exact Hlt]].
    split; [|exact Hlt]. simpl. unfold store.
    destruct (Nat.eqb_spec o o1) as [Heq|_].
    + subst o1. eexists. split; [reflexivity|]. simpl. congruence.
    + now exists self.
Qed.

Lemma stored_run (o : obj) (v : dist) (ops : list op) : forall w,
  stored w o v -> stored (run ops w) o v.
Proof.
  induction ops as [|a ops IH]; intros w Hw; simpl; [exact Hw|].
  apply IH. now apply stored_step.
Qed.

(** C3: in every world reached from the initial one by constructing
    instances, reading minimum and changing images, and for every
    instance: the body of minimum has returned at most once; as long as
    no read of the instance has raised, its distance array has been
    computed at most once; and once a read has returned a value, every
    later read returns that value and leaves the world as it is, so that
    nothing is computed again, whatever was done in between. *)
Theorem minimum_memoised (ops : list op) (o : obj) :
  (count (Computed_minimum o) (log (run ops init)) <= 1)%nat /\
  (count (Raised_minimum o) (log (run ops init)) = 0%nat ->
   (count (Computed_distances o) (log (run ops init)) <= 1)%nat) /\
  (forall v w', get_minimum o (run ops init) = (Some v, w') ->
   forall ops', get_minimum o (run ops' w') = (Some v, run ops' w')).
Proof.
  pose proof (inv_run ops init inv_init) as Hw. repeat split.
  - rewrite (inv_minimum _ Hw). destruct (cached (run ops init) o); lia.
  - intros Hr. rewrite (inv_distances _ Hw o Hr).
    destruct (cached (run ops init) o); lia.
  - intros v w' Hget ops'. apply stored_get, stored_run.
    now apply (get_stored o v (run ops init)).
Qed.

End Memo.

Lemma minimum_memoised_witness :
  (count (Computed_distances 1%nat) (log (run interleaved init)) <= 1)%nat /\
  exists v, forall ops',
    get_minimum 1%nat (run ops' (run interleaved init)) =
    (Some v, run ops' (run interleaved init)).
Proof.
  destruct (minimum_memoised interleaved 1%nat) as [_ [Hd Hs]]. split.
  - apply Hd. reflexivity.
  - eexists. intros ops'. apply Hs. reflexivity.
Defined.

(** C3 as stated fails: with the reference index, the reads of
    [interleaved] compute the distance array of instance 0 twice. *)
Lemma distances_computed_twice :
  count (Computed_distances 0%nat) (log (run interleaved init)) = 2%nat /\
  ~ (count (Computed_distances 0%nat) (log (run interleaved init)) <= 1)%nat.
Proof.
  assert (E : count (Computed_distances 0%nat) (log (run interleaved init)) = 2%nat)
    by (lazy; reflexivity).
  split; [exact E|]. rewrite E. lia.
Qed.

(** * Further properties *)

(** ** The distance array *)

Section DistanceArray.

Lemma nearest_distance_unique (data : arrN3 R) (q : point) (d d' : dist) :
  nearest_distance data q d -> nearest_distance data q d' -> d = d'.
Proof.
  destruct d as [r|], d' as [r'|]; simpl.
  - intros [x [Hx [-> Hle]]] [x' [Hx' [-> Hle']]]. f_equal.
    apply Rle_antisym; [now apply Hle|now apply Hle'].
  - intros [x [Hx _]] ->. contradiction.
  - intros -> [x [Hx _]]. contradiction.
  - reflexivity.
Qed.

Lemma contract_scan (data qs : arrN3 R) (ds : list dist) :
  Forall2 (nearest_distance data) qs ds -> ds = map (scan data) qs.
Proof.
  induction 1 as [|q d qs ds Hq _ IH]; simpl; [reflexivity|].
  f_equal; [|exact IH].
  eapply nearest_distance_unique; [exact Hq|apply scan_nearest].
Qed.

Lemma compute_distances_scan {SI : SpatialIndex} (img1 img2 : Image) :
  _compute_distances img1 img2 =
  map (scan (convert_to_world_coordinates img2))
      (convert_to_world_coordinates img1).
Proof. unfold _compute_distances. apply contract_scan, query_spec. Qed.

Lemma scan_incl (B B' : arrN3 R) (q : point) :
  incl B B' -> dist_le (scan B' q) (scan B q).
Proof.
  intros Hi.
  pose proof (scan_nearest B q) as H. pose proof (scan_nearest B' q) as H'.
  destruct (scan B q) as [r|]; [|now destruct (scan B' q)].
  destruct H as [x [Hx [-> _]]].
  destruct (scan B' q) as [r'|]; simpl.
  - destruct H' as [_ [_ [_ Hle]]]. apply Hle. now apply Hi.
  - simpl in H'. apply Hi in Hx. rewrite H' in Hx. contradiction.
Qed.

Lemma scan_nonneg (B : arrN3 R) (q : point) : dist_le (Fin 0) (scan B q).
Proof.
  pose proof (scan_nearest B q) as H.
  destruct (scan B q) as [r|]; simpl; [|exact I].
  destruct H as [x [_ [-> _]]]. apply norm2_nonneg.
Qed.

(** X1: the distance array does not depend on the index that computes
    it, and it has one entry per voxel above zero of the first image. *)
Theorem distances_determined (SI1 SI2 : SpatialIndex) (img1 img2 : Image) :
  @_compute_distances SI1 img1 img2 = @_compute_distances SI2 img1 img2 /\
  length (@_compute_distances SI1 img1 img2) =
    count_positive (GetArrayFromImage img1).
Proof.
  rewrite !compute_distances_scan. split; [reflexivity|].
  rewrite length_map, convert_rows, length_map. apply argwhere_count.
Qed.

(** X2: over a second mask with no voxel above zero, the distance array
    holds one infinite distance per voxel above zero of the first. *)
Theorem distances_all_infinite {SI : SpatialIndex} (img1 img2 : Image)
  (Hzero : all_zero (GetArrayFromImage img2)) :
  _compute_distances img1 img2 =
  repeat Inf (count_positive (GetArrayFromImage img1)).
Proof.
  rewrite compute_distances_scan, (all_zero_cloud img2 Hzero).
  rewrite <- argwhere_count, convert_rows. simpl.
  induction (argwhere (gt0 (GetArrayFromImage img1))) as [|p l IH];
    simpl; [reflexivity|now rewrite IH].
Qed.

Lemma distances_all_infinite_witness :
  _compute_distances sample_a_grown sample_empty =
  repeat Inf (count_positive (GetArrayFromImage sample_a_grown)).
Proof. apply distances_all_infinite. exact sample_empty_zero. Defined.

(** X3: a first mask with no voxel above zero gives the empty distance
    array, whatever the second image. *)
Theorem distances_none {SI : SpatialIndex} (img1 img2 : Image)
  (Hzero : all_zero (GetArrayFromImage img1)) :
  _compute_distances img1 img2 = [].
Proof.
  now rewrite compute_distances_scan, (all_zero_cloud img1 Hzero).
Qed.

Lemma distances_none_witness : _compute_distances sample_empty sample_b = [].
Proof. apply distances_none. exact sample_empty_zero. Defined.

(** X4: every entry of the distance array is non-negative, and growing
    the second mask lowers or keeps each entry. *)
Theorem distances_antitone {SI : SpatialIndex} (img1 img2 img2' : Image)
  (G : grown img2 img2') :
  Forall (dist_le (Fin 0)) (_compute_distances img1 img2') /\
  Forall2 dist_le (_compute_distances img1 img2')
                  (_compute_distances img1 img2).
Proof.
  rewrite !compute_distances_scan. apply grown_incl in G. split.
  - apply Forall_forall. intros d Hd. apply in_map_iff in Hd.
    destruct Hd as [q [<- _]]. apply scan_nonneg.
  - induction (convert_to_world_coordinates img1) as [|q l IH]; simpl;
      constructor; [now apply scan_incl|exact IH].
Qed.

Lemma distances_antitone_witness :
  Forall (dist_le (Fin 0)) (_compute_distances sample_b sample_a_grown) /\
  Forall2 dist_le (_compute_distances sample_b sample_a_grown)
                  (_compute_distances sample_b sample_a).
Proof. apply distances_antitone. exact sample_a_grows. Defined.

End DistanceArray.

(** ** Overlapping masks, and where the minimum is attained *)

Section Attained.

Context {SI : SpatialIndex}.

Lemma shared_point_zero (img1 img2 : Image) (p : point) :
  In p (convert_to_world_coordinates img1) ->
  In p (convert_to_world_coordinates img2) ->
  minimum img1 img2 = Some (Fin 0).
Proof.
  intros H1 H2.
  assert (N1 : convert_to_world_coordinates img1 <> [])
    by (intros E; rewrite E in H1; contradiction).
  assert (N2 : convert_to_world_coordinates img2 <> [])
    by (intros E; rewrite E in H2; contradiction).
  destruct (query_min _ _ N1 N2) as [r [Hr [Hin Hle]]].
  unfold minimum, _compute_distances. rewrite Hr. do 2 f_equal.
  apply Rle_antisym.
  - apply Hle. apply pairwise_In. exists p, p. now rewrite norm2_self.
  - apply pairwise_In in Hin. destruct Hin as [a [b [_ [_ ->]]]].
    apply norm2_nonneg.
Qed.

Lemma positive_voxel_point (img : Image) (z y x : nat) (v : Z) :
  voxel (GetArrayFromImage img) z y x = Some v -> (0 < v)%Z ->
  In (world_point img (x, y, z)) (convert_to_world_coordinates img).
Proof.
  intros Hv Hpos. rewrite convert_rows.
  apply (in_map (fun p => world_point img (reversed p)) _ (z, y, x)).
  apply argwhere_gt0_In. now exists v.
Qed.

Lemma point_positive_voxel (img : Image) (p : point) :
  In p (convert_to_world_coordinates img) ->
  exists z y x v, voxel (GetArrayFromImage img) z y x = Some v /\ (0 < v)%Z /\
                  p = world_point img (x, y, z).
Proof.
  rewrite convert_rows, in_map_iff. intros [[[z y] x] [<- Hin]].
  apply argwhere_gt0_In in Hin. destruct Hin as [v [Hv Hpos]].
  now exists z, y, x, v.
Qed.

(** X6: two images with the same origin, spacing and direction whose
    masks are both above zero at one array position have minimum 0. *)
Theorem overlap_zero (img1 img2 : Image) (z y x : nat) (v1 v2 : Z)
  (Eo : GetOrigin img2 = GetOrigin img1)
  (Es : GetSpacing img2 = GetSpacing img1)
  (Ed : GetDirection img2 = GetDirection img1)
  (H1 : voxel (GetArrayFromImage img1) z y x = Some v1) (P1 : (0 < v1)%Z)
  (H2 : voxel (GetArrayFromImage img2) z y x = Some v2) (P2 : (0 < v2)%Z) :
  minimum img1 img2 = Some (Fin 0).
Proof.
  apply (shared_point_zero img1 img2 (world_point img1 (x, y, z))).
  - now apply (positive_voxel_point img1 z y x v1).
  - rewrite <- (world_point_metadata img1 img2 (x, y, z) Eo Es Ed).
    now apply (positive_voxel_point img2 z y x v2).
Qed.

(** X7: when both masks hold a voxel above zero, minimum is the distance
    between the world points of one such voxel of each image, and no
    pair of such voxels is closer. *)
Theorem minimum_attained (img1 img2 : Image)
  (H1 : has_positive (GetArrayFromImage img1))
  (H2 : has_positive (GetArrayFromImage img2)) :
  exists r,
    minimum img1 img2 = Some (Fin r) /\
    (exists z1 y1 x1 v1 z2 y2 x2 v2,
       voxel (GetArrayFromImage img1) z1 y1 x1 = Some v1 /\ (0 < v1)%Z /\
       voxel (GetArrayFromImage img2) z2 y2 x2 = Some v2 /\ (0 < v2)%Z /\
       r = norm2 (world_point img1 (x1, y1, z1)) (world_point img2 (x2, y2, z2))) /\
    (forall z1 y1 x1 v1 z2 y2 x2 v2,
       voxel (GetArrayFromImage img1) z1 y1 x1 = Some v1 -> (0 < v1)%Z ->
       voxel (GetArrayFromImage img2) z2 y2 x2 = Some v2 -> (0 < v2)%Z ->
       r <= norm2 (world_point img1 (x1, y1, z1)) (world_point img2 (x2, y2, z2))).
Proof.
  destruct (minimum_is_min img1 img2 H1 H2) as [r [Hr [Hin Hle]]].
  exists r. split; [exact Hr|]. split.
  - apply pairwise_In in Hin. destruct Hin as [a [b [Ha [Hb ->]]]].
    apply point_positive_voxel in Ha, Hb.
    destruct Ha as [z1 [y1 [x1 [v1 [Hv1 [P1 ->]]]]]].
    destruct Hb as [z2 [y2 [x2 [v2 [Hv2 [P2 ->]]]]]].
    exists z1, y1, x1, v1, z2, y2, x2, v2. repeat split; assumption.
  - intros z1 y1 x1 v1 z2 y2 x2 v2 Hv1 P1 Hv2 P2.
    apply Hle, pairwise_In.
    exists (world_point img1 (x1, y1, z1)), (world_point img2 (x2, y2, z2)).
    repeat split.
    + now apply (positive_voxel_point img1 z1 y1 x1 v1).
    + now apply (positive_voxel_point img2 z2 y2 x2 v2).
Qed.

End Attained.

Lemma overlap_zero_witness : minimum sample_a sample_a_grown = Some (Fin 0).
Proof.
  apply (overlap_zero sample_a sample_a_grown 0 0 0 1%Z 1%Z);
    try reflexivity; lia.
Defined.

Lemma minimum_attained_witness :
  exists r,
    minimum sample_a sample_b = Some (Fin r) /\
    (exists z1 y1 x1 v1 z2 y2 x2 v2,
       voxel (GetArrayFromImage sample_a) z1 y1 x1 = Some v1 /\ (0 < v1)%Z /\
       voxel (GetArrayFromImage sample_b) z2 y2 x2 = Some v2 /\ (0 < v2)%Z /\
       r = norm2 (world_point sample_a (x1, y1, z1))
                 (world_point sample_b (x2, y2, z2))) /\
    (forall z1 y1 x1 v1 z2 y2 x2 v2,
       voxel (GetArrayFromImage sample_a) z1 y1 x1 = Some v1 -> (0 < v1)%Z ->
       voxel (GetArrayFromImage sample_b) z2 y2 x2 = Some v2 -> (0 < v2)%Z ->
       r <= norm2 (world_point sample_a (x1, y1, z1))
                  (world_point sample_b (x2, y2, z2))).
Proof.
  apply minimum_attained; [exact sample_a_positive|exact sample_b_positive].
Defined.

(** ** What the cloud reads of the voxel values *)

Section Labels.

(** X11: only the sign of a voxel matters: every label above zero counts
    the same, zero and negative values are background. *)
Theorem labels_irrelevant (img : Image) :
  convert_to_world_coordinates (binarise img) =
  convert_to_world_coordinates img.
Proof.
  rewrite !convert_rows.
  destruct img as [o s d mask]. unfold binarise; simpl.
  assert (E : gt0 (map (map (map (fun v => if (0 <? v)%Z then 1%Z else 0%Z))) mask)
              = gt0 mask).
  { unfold gt0. rewrite map_map. apply map_ext. intros plane.
    rewrite map_map. apply map_ext. intros row.
    rewrite map_map. apply map_ext. intros v.
    now destruct (0 <? v)%Z. }
  rewrite E. apply map_ext. intros p. reflexivity.
Qed.

End Labels.

(** ** Reads of minimum between construction, mutation and other reads *)

Section Reads.

Context {SI : SpatialIndex}.

(** Without a stored minimum and without the slot, a read computes from
    the images the instance holds now. *)
Lemma read_computes (o : obj) (self : Distances) (w : World) :
  heap w o = Some self -> dict_minimum self = None ->
  (forall d, lru w <> Some (o, d)) ->
  fst (get_minimum o w) = minimum (img_1 self) (img_2 self).
Proof.
  intros E Ev Hl. unfold get_minimum. rewrite E, Ev.
  destruct (call_compute_distances_cases o self w) as [[d [Hd _]]|[_ ->]];
    [now elim (Hl d)|].
  fold (minimum (img_1 self) (img_2 self)).
  now destruct (minimum (img_1 self) (img_2 self)).
Qed.

(** Without a stored minimum but with the slot, a read takes the array
    in the slot. *)
Lemma read_slot (o : obj) (self : Distances) (d : list dist) (w : World) :
  heap w o = Some self -> dict_minimum self = None ->
  lru w = Some (o, d) ->
  fst (get_minimum o w) = np_min d.
Proof.
  intros E Ev Hl. unfold get_minimum. rewrite E, Ev.
  destruct (call_compute_distances_cases o self w) as [[d' [Hd ->]]|[Hn _]];
    [|now elim (Hn d)].
  rewrite Hl in Hd. injection Hd as <-. now destruct (np_min d).
Qed.

(** What a read that raises leaves behind. *)
Lemma raise_leaves_slot (o : obj) (self : Distances) (w w' : World) :
  heap w o = Some self -> get_minimum o w = (None, w') ->
  heap w' = heap w /\ dict_minimum self = None /\
  exists d, lru w' = Some (o, d) /\ np_min d = None.
Proof.
  intros E. unfold get_minimum. rewrite E.
  destruct (dict_minimum self) as [v|]; [discriminate|].
  destruct (call_compute_distances_cases o self w) as [[d [Hd ->]]|[_ ->]].
  - destruct (np_min d) eqn:Em; [discriminate|].
    intros H. injection H as <-. simpl. repeat split. now exists d.
  - destruct (np_min (_compute_distances (img_1 self) (img_2 self))) eqn:Em;
      [discriminate|].
    intros H. injection H as <-. simpl. repeat split. eauto.
Qed.

(** X13: the minimum is computed at the first read, not at construction:
    images changed after construction and before the first read are the
    ones the read uses. *)
Theorem first_read_after_mutation (ops : list op) (i1 i2 j1 j2 : Image) :
  fst (get_minimum (next (run ops init))
         (mutate (next (run ops init)) j1 j2 (snd (new i1 i2 (run ops init))))) =
  minimum j1 j2.
Proof.
  pose proof (inv_run ops init inv_init) as Hw.
  set (w := run ops init) in *.
  assert (Hh : heap (mutate (next w) j1 j2 (snd (new i1 i2 w))) (next w) =
               Some (mkDistances j1 j2 None)).
  { unfold mutate. simpl. unfold store. rewrite Nat.eqb_refl. simpl.
    now rewrite Nat.eqb_refl. }
  rewrite (read_computes _ _ _ Hh eq_refl); [reflexivity|].
  intros d Hl. unfold mutate in Hl. simpl in Hl. unfold store in Hl.
  rewrite Nat.eqb_refl in Hl. simpl in Hl.
  apply (inv_slot w Hw) in Hl. lia.
Qed.

(** X14: after a read of minimum has raised, changing the images of the
    instance does not help: the next read takes the empty array left in
    the slot and raises again. *)
Theorem raise_sticks (o : obj) (w w' : World) (j1 j2 : Image)
  (Hraise : get_minimum o w = (None, w')) :
  fst (get_minimum o (mutate o j1 j2 w')) = None.
Proof.
  destruct (heap w o) as [self|] eqn:E.
  - destruct (raise_leaves_slot o self w w' E Hraise)
      as [Hh [Ev [d [Hl Hd]]]].
    rewrite <- Hd.
    apply (read_slot o (mkDistances j1 j2 None)).
    + unfold mutate. rewrite Hh, E. simpl. unfold store.
      now rewrite Nat.eqb_refl, Ev.
    + reflexivity.
    + unfold mutate. rewrite Hh, E. exact Hl.
  - unfold get_minimum in Hraise. rewrite E in Hraise.
    injection Hraise as <-.
    unfold mutate. rewrite E. unfold get_minimum. now rewrite E.
Qed.

(** X15: the raise stops sticking once another instance has computed
    its distances: after that, a read on the first instance computes
    from the images it holds now. *)
Theorem raise_recovers (o o' : obj) (self self' : Distances)
  (w w1 : World) (j1 j2 : Image)
  (Hne : o <> o')
  (Hlive : heap w o = Some self)
  (Hraise : get_minimum o w = (None, w1))
  (Hother : heap w1 o' = Some self')
  (Hfresh : dict_minimum self' = None) :
  fst (get_minimum o (mutate o j1 j2 (snd (get_minimum o' w1)))) = minimum j1 j2.
Proof.
  destruct (raise_leaves_slot o self w w1 Hlive Hraise)
    as [Hh [Ev [d [Hl Hd]]]].
  assert (Ho : heap w1 o = Some self) by now rewrite Hh.
  set (w2 := snd (get_minimum o' w1)).
  assert (H2 : heap w2 o = Some self /\ forall d0, lru w2 <> Some (o, d0)).
  { unfold w2, get_minimum. rewrite Hother, Hfresh.
    destruct (call_compute_distances_cases o' self' w1)
      as [[d0 [Hd0 _]]|[_ ->]]; [congruence|].
    destruct (np_min (_compute_distances (img_1 self') (img_2 self')));
      simpl; (split; [|congruence]); try exact Ho.
    unfold store. destruct (Nat.eqb_spec o o') as [Heq|_];
      [contradiction|exact Ho]. }
  destruct H2 as [Ho2 Hl2].
  apply (read_computes o (mkDistances j1 j2 None)).
  - unfold mutate. rewrite Ho2. simpl. unfold store.
    now rewrite Nat.eqb_refl, Ev.
  - reflexivity.
  - unfold mutate. rewrite Ho2. exact Hl2.
Qed.

Lemma call_takes_slot (o : obj) (self : Distances) (w : World) :
  exists d, lru (snd (call_compute_distances o self w)) = Some (o, d) /\
            fst (call_compute_distances o self w) = d.
Proof.
  destruct (call_compute_distances_cases o self w) as [[d [Hd ->]]|[_ ->]];
    simpl; eauto.
Qed.

(** X16: a call of [_compute_distances] right after a call for the same
    instance returns the same array and runs nothing, whatever the
    images of the instance now are. *)
Theorem slot_repeat (o : obj) (self self1 : Distances) (w : World) :
  call_compute_distances o self1 (snd (call_compute_distances o self w)) =
  call_compute_distances o self w.
Proof.
  destruct (call_takes_slot o self w) as [d [Hl Hf]].
  destruct (call_compute_distances_cases o self1
              (snd (call_compute_distances o self w)))
    as [[d1 [Hd1 ->]]|[Hn _]]; [|now elim (Hn d)].
  rewrite Hl in Hd1. injection Hd1 as <-. rewrite <- Hf.
  now destruct (call_compute_distances o self w).
Qed.

(** X17: a call of [_compute_distances] after a call for another
    instance always runs the body again, on the images the instance
    holds now, and takes the slot back. *)
Theorem slot_evicted (o o' : obj) (self1 self' : Distances) (w : World)
  (Hne : o <> o') :
  call_compute_distances o self1 (snd (call_compute_distances o' self' w)) =
  (_compute_distances (img_1 self1) (img_2 self1),
   {| heap := heap (snd (call_compute_distances o' self' w));
      next := next (snd (call_compute_distances o' self' w));
      lru := Some (o, _compute_distances (img_1 self1) (img_2 self1));
      log := log (snd (call_compute_distances o' self' w))
             ++ [Computed_distances o] |}).
Proof.
  destruct (call_takes_slot o' self' w) as [d [Hl _]].
  destruct (call_compute_distances_cases o self1
              (snd (call_compute_distances o' self' w)))
    as [[d1 [Hd1 _]]|[_ ->]]; [congruence|reflexivity].
Qed.

End Reads.

Lemma raise_sticks_witness :
  fst (get_minimum 0%nat
         (mutate 0%nat sample_a sample_b
            (snd (get_minimum 0%nat (snd (new sample_empty sample_b init)))))) =
  None.
Proof.
  apply (raise_sticks 0%nat (snd (new sample_empty sample_b init))).
  reflexivity.
Defined.

Lemma raise_recovers_witness :
  fst (get_minimum 0%nat
         (mutate 0%nat sample_a sample_b
            (snd (get_minimum 1%nat
               (snd (get_minimum 0%nat
                  (snd (new sample_a sample_b
                     (snd (new sample_empty sample_b init)))))))))) =
  minimum sample_a sample_b.
Proof.
  apply (raise_recovers 0%nat 1%nat
           (mkDistances sample_empty sample_b None)
           (mkDistances sample_a sample_b None)
           (snd (new sample_a sample_b (snd (new sample_empty sample_b init)))));
    try reflexivity.
  discriminate.
Defined.

Lemma slot_evicted_witness :
  fst (call_compute_distances 0%nat (mkDistances sample_a sample_b None)
         (snd (call_compute_distances 1%nat
                 (mkDistances sample_b sample_a None) init))) =
  _compute_distances sample_a sample_b.
Proof.
  rewrite (slot_evicted 0%nat 1%nat (mkDistances sample_a sample_b None)
             (mkDistances sample_b sample_a None) init); [reflexivity|].
  discriminate.
Defined.

(** ** Two edge cases *)

(** X18: with the identity direction the axes do not mix: the world
    point of the voxel at array position [z][y][x] is the origin plus
    (x, y, z) times the spacing, axis by axis. *)
Theorem identity_direction_points (o s : row3 R) (mask : list (list (list Z))) :
  convert_to_world_coordinates (mkImage o s identity mask) =
  map (fun pv =>
         let '(z, y, x) := fst pv in
         let '(o0, o1, o2) := o in
         let '(s0, s1, s2) := s in
         (o0 + s0 * INR x, o1 + s1 * INR y, o2 + s2 * INR z))
      (positive_voxels mask).
Proof.
  rewrite convert_rows. simpl GetArrayFromImage.
  rewrite argwhere_positive_voxels, map_map.
  apply map_ext. intros [[[z y] x] v].
  destruct o as [[o0 o1] o2], s as [[s0 s1] s2].
  unfold world_point, identity; simpl. f_equal; [f_equal|]; ring.
Qed.

(** X19: with exactly one empty cloud the order of the images matters:
    an empty second cloud gives an infinite minimum, an empty first
    cloud makes the read raise. *)
Theorem one_empty_cloud {SI : SpatialIndex} (img1 img2 : Image)
  (H1 : has_positive (GetArrayFromImage img1))
  (H2 : all_zero (GetArrayFromImage img2)) :
  minimum img1 img2 = Some Inf /\ minimum img2 img1 = None.
Proof.
  apply has_positive_cloud in H1. apply all_zero_cloud in H2. split.
  - now apply minimum_infinite.
  - now apply minimum_raises.
Qed.

Lemma one_empty_cloud_witness :
  minimum sample_a sample_empty = Some Inf /\
  minimum sample_empty sample_a = None.
Proof.
  apply one_empty_cloud; [exact sample_a_positive|exact sample_empty_zero].
Defined.
